(** * Sharded CLOCK cache (package models): a shallow embedding

    The storage engine of the key-value service: [ShardedCache], its
    [CacheShard]s, the CLOCK sweep [evict], the batch driver [evictBatch] and
    the memory monitor.  The embedding is sequential: the per-shard
    [sync.RWMutex] and the goroutine scheduling are left out, every method
    is a state transformer on the cache value.

    Conventions.
    - A Go [int]/[int64] is a [Z].  The accumulating counter [memUsage] is
      updated by [atomic.AddInt64], whose two's-complement wrap-around is
      written out in [AddInt64].  [len] of a Go string is bounded by the
      address space, so the sums and differences of two lengths and the
      loop counters of [evict] (bounded by twice a list length) are plain
      integers.
    - A [*list.Element] is an address ([nat]).  [container/list] is modelled
      by the sequence of its elements, front first, each carrying its
      address and its [*ClockItem] payload; the element owns its payload
      (no two elements share one), so the payload is stored inline.
    - A run that panics in Go (nil dereference, index out of range, integer
      division by zero) is [None]. *)

From Stdlib Require Import ZArith SpecFloat.
From stdpp Require Import gmap strings list fin_maps.
From stdpp Require Import pretty.

Set Warnings "-clear-no-such-hyp,-level-tolerance".

Local Open Scope Z_scope.

(** ** Machine integers *)

Definition wrap64 (z : Z) : Z := (z + 2 ^ 63) mod 2 ^ 64 - 2 ^ 63.

Definition in_int64 (z : Z) : Prop := - 2 ^ 63 <= z < 2 ^ 63.

(** [atomic.AddInt64(&x, d)]: the new value of [x]. *)
Definition AddInt64 (x d : Z) : Z := wrap64 (x + d).

(** [len(s)] of a Go string: its number of bytes. *)
Definition len (s : string) : Z := Z.of_nat (String.length s).

(** ** Constants *)

Definition DefaultShards : Z := 1024.
Definition EvictionBatchSize : Z := 200.

(** binary64 parameters and the two float constants of the source, each
    the double nearest to the decimal literal. *)
Definition prec64 : Z := 53.
Definition emax64 : Z := 1024.
(** [0.7] is [0x3FE6666666666666]. *)
Definition MaxMemoryPercent : spec_float := S754_finite false 6305039478318694 (-53).
(** [0.85] is [0x3FEB333333333333]. *)
Definition severityMark : spec_float := S754_finite false 7656119366529843 (-53).

(** [float64(u)] for an unsigned integer [u], rounding to nearest even. *)
Definition float64_of_uint (u : Z) : spec_float :=
  binary_normalize prec64 emax64 u 0 false.

(** ** Data model *)

Record ClockItem := mkClockItem {
  key : string;
  referenced : bool;
  size : Z
}.

(** One node of [itemsList]: its address and the [ClockItem] it holds. *)
Record Element := mkElement {
  ptr : nat;
  Value : ClockItem
}.

Record CacheShard := mkCacheShard {
  items : gmap string string;
  elements : gmap string nat;
  clockHand : option nat;
  itemsList : list Element;
  (** allocator state: the address the next [PushBack] returns *)
  nextPtr : nat
}.

(** [stopChan] is left out: only the monitor receives from it, and that
    is the [StopSignal] event of [monitorMemory] below. *)
Record ShardedCache := mkShardedCache {
  shards : list CacheShard;
  shardCount : Z;
  maxMemoryPct : spec_float;
  memUsage : Z
}.

(** ** container/list *)

Definition Len (l : list Element) : Z := Z.of_nat (length l).

Definition Front (l : list Element) : option nat := ptr <$> head l.

(** [e.Next()]: the element after [e], [nil] for the last one (and for an
    element that is not in the list). *)
Fixpoint Next (e : nat) (l : list Element) : option nat :=
  match l with
  | [] => None
  | x :: l' => if decide (ptr x = e) then Front l' else Next e l'
  end.

Definition Remove (e : nat) (l : list Element) : list Element :=
  filter (λ x, ptr x ≠ e) l.

Definition PushBack (e : nat) (v : ClockItem) (l : list Element) : list Element :=
  l ++ [mkElement e v].

(** [e.Value] asserted to a [ClockItem] pointer: the payload of the
    element at address [e]. *)
Fixpoint elemValue (e : nat) (l : list Element) : option ClockItem :=
  match l with
  | [] => None
  | x :: l' => if decide (ptr x = e) then Some (Value x) else elemValue e l'
  end.

(** Assignment through the payload pointer of the element at [e].  An
    element that has left the list is not reachable from the shard any
    more, so a write to it is dropped. *)
Definition updValue (f : ClockItem → ClockItem) (e : nat) (l : list Element)
  : list Element :=
  (λ x, if decide (ptr x = e) then mkElement (ptr x) (f (Value x)) else x) <$> l.

Definition nextOrFirst (e : nat) (l : list Element) : option nat :=
  match Next e l with
  | None => Front l
  | Some n => Some n
  end.

(** ** Field updates *)

Definition set_referenced (b : bool) (it : ClockItem) : ClockItem :=
  mkClockItem (key it) b (size it).

Definition set_referenced_size (b : bool) (sz : Z) (it : ClockItem) : ClockItem :=
  mkClockItem (key it) b sz.

Definition with_itemsList (l : list Element) (s : CacheShard) : CacheShard :=
  mkCacheShard (items s) (elements s) (clockHand s) l (nextPtr s).

Definition with_clockHand (h : option nat) (s : CacheShard) : CacheShard :=
  mkCacheShard (items s) (elements s) h (itemsList s) (nextPtr s).

Definition with_items (m : gmap string string) (s : CacheShard) : CacheShard :=
  mkCacheShard m (elements s) (clockHand s) (itemsList s) (nextPtr s).

Definition with_shard (i : nat) (s : CacheShard) (c : ShardedCache) : ShardedCache :=
  mkShardedCache (<[i := s]> (shards c)) (shardCount c) (maxMemoryPct c) (memUsage c).

Definition with_memUsage (m : Z) (c : ShardedCache) : ShardedCache :=
  mkShardedCache (shards c) (shardCount c) (maxMemoryPct c) m.

(** ** Construction *)

Definition emptyShard : CacheShard := mkCacheShard ∅ ∅ None [] 0%nat.

(** [NewCache] with the constant [DefaultShards] abstracted to [n]. *)
Definition NewCacheN (n : nat) : ShardedCache :=
  mkShardedCache (replicate n emptyShard) (Z.of_nat n) MaxMemoryPercent 0.

Definition NewCache : ShardedCache := NewCacheN (Z.to_nat DefaultShards).

(** ** Hash routing *)

Fixpoint fnv32_loop (hash : Z) (k : string) : Z :=
  match k with
  | EmptyString => hash
  | String ch rest =>
      fnv32_loop (Z.lxor ((hash * 16777619) mod 2 ^ 32) (Z.of_N (Ascii.N_of_ascii ch))) rest
  end.

Definition fnv32 (k : string) : Z := fnv32_loop 2166136261 k.

(** [getShard]: the index of the shard, [hash % uint32(c.shardCount)];
    the remainder by zero panics. *)
Definition getShard (c : ShardedCache) (k : string) : option nat :=
  let m := shardCount c mod 2 ^ 32 in
  if decide (m = 0) then None else Some (Z.to_nat (fnv32 k mod m)).

(** ** Get *)

Definition Get (k : string) (c : ShardedCache) : option (string * bool * ShardedCache) :=
  i ← getShard c k;
  shard ← shards c !! i;
  match items shard !! k with
  | Some val =>
      let shard' :=
        match elements shard !! k with
        | Some elem =>
            with_itemsList (updValue (set_referenced true) elem (itemsList shard)) shard
        | None => shard
        end in
      Some (val, true, with_shard i shard' c)
  | None => Some (EmptyString, false, c)
  end.

(** ** Put *)

Definition Put (k value : string) (c : ShardedCache) : option ShardedCache :=
  i ← getShard c k;
  shard ← shards c !! i;
  let valueSize := len value in
  let keySize := len k in
  let totalSize := keySize + valueSize in
  match items shard !! k with
  | Some oldVal =>
      let shard1 := with_items (<[k := value]> (items shard)) shard in
      let oldSize := len oldVal in
      let sizeDiff := valueSize - oldSize in
      let mem := if decide (sizeDiff = 0) then memUsage c
                 else AddInt64 (memUsage c) sizeDiff in
      let shard2 :=
        match elements shard1 !! k with
        | Some elem =>
            with_itemsList
              (updValue (set_referenced_size true totalSize) elem (itemsList shard1))
              shard1
        | None => shard1
        end in
      Some (with_memUsage mem (with_shard i shard2 c))
  | None =>
      let item := mkClockItem k true totalSize in
      let element := nextPtr shard in
      let hand := match clockHand shard with
                  | None => Some element
                  | Some h => Some h
                  end in
      let shard' :=
        mkCacheShard (<[k := value]> (items shard))
                     (<[k := element]> (elements shard))
                     hand
                     (PushBack element item (itemsList shard))
                     (S (nextPtr shard)) in
      Some (with_memUsage (AddInt64 (memUsage c) totalSize) (with_shard i shard' c))
  end.

(** ** The CLOCK sweep of one shard *)

(** The variables of the loop in [evict]. *)
Record SweepState := mkSweep {
  sw_shard : CacheShard;
  evicted : Z;
  attempts : Z
}.

(** One run of the loop body.  The boolean tells whether the body left the
    loop through [break].  The result is [None] when the hand is nil (a nil
    dereference) and when the hand is on no node of the queue, a state that
    no operation leaves behind (see [shard_inv]) and that the model does
    not follow further. *)
Definition evict_body (st : SweepState) : option (SweepState * bool) :=
  let s := sw_shard st in
  let attempts' := attempts st + 1 in
  hand ← clockHand s;
  item ← elemValue hand (itemsList s);
  if referenced item then
    let l := updValue (set_referenced false) hand (itemsList s) in
    Some (mkSweep (mkCacheShard (items s) (elements s) (nextOrFirst hand l) l (nextPtr s))
                  (evicted st) attempts', false)
  else
    let next := nextOrFirst hand (itemsList s) in
    let l := Remove hand (itemsList s) in
    let s1 := mkCacheShard (delete (key item) (items s))
                           (delete (key item) (elements s)) next l (nextPtr s) in
    if decide (Len l = 0)
    then Some (mkSweep (with_clockHand None s1) (evicted st + 1) attempts', true)
    else Some (mkSweep s1 (evicted st + 1) attempts', false).

(** The loop [for evicted < count && attempts < maxAttempts].  [fuel] bounds
    the number of iterations of the model; running out of it is [None]. *)
Fixpoint evict_loop (fuel : nat) (count maxAttempts : Z) (st : SweepState)
  : option SweepState :=
  if decide (evicted st < count ∧ attempts st < maxAttempts) then
    match fuel with
    | O => None
    | S fuel' =>
        '(st', brk) ← evict_body st;
        if brk : bool then Some st' else evict_loop fuel' count maxAttempts st'
    end
  else Some st.

(** [evict] up to its [return]: the final values of the loop variables. *)
Definition evict_run (count : Z) (s : CacheShard) : option SweepState :=
  if decide (clockHand s = None ∨ Len (itemsList s) = 0) then Some (mkSweep s 0 0)
  else
    let maxAttempts := Len (itemsList s) * 2 in
    evict_loop (Z.to_nat maxAttempts) count maxAttempts (mkSweep s 0 0).

Definition evict (count : Z) (s : CacheShard) : option (Z * CacheShard) :=
  st ← evict_run count s;
  Some (evicted st, sw_shard st).

(** ** evictBatch *)

(** The loop [for i := 0; i < c.shardCount && evicted < count; i++], from
    the values [i] and [ev] of its variables. *)
Fixpoint evictBatch_loop (fuel : nat) (count perShardCount : Z) (i ev : Z)
    (c : ShardedCache) : option (Z * ShardedCache) :=
  if decide (i < shardCount c ∧ ev < count) then
    match fuel with
    | O => None
    | S fuel' =>
        shard ← shards c !! Z.to_nat i;
        '(n, shard') ← evict perShardCount shard;
        evictBatch_loop fuel' count perShardCount (i + 1) (ev + n)
                        (with_shard (Z.to_nat i) shard' c)
    end
  else Some (ev, c).

(** [evictBatch] with the final value of its local [evicted]. *)
Definition evictBatch_run (count : Z) (c : ShardedCache) : option (Z * ShardedCache) :=
  if decide (shardCount c = 0) then None
  else
    let perShardCount := Z.quot count (shardCount c) in
    let perShardCount := if decide (perShardCount < 1) then 1 else perShardCount in
    evictBatch_loop (Z.to_nat (shardCount c)) count perShardCount 0 0 c.

Definition evictBatch (count : Z) (c : ShardedCache) : option ShardedCache :=
  snd <$> evictBatch_run count c.

(** ** monitorMemory *)

(** The two fields of [runtime.MemStats] the monitor reads (both [uint64]). *)
Record MemStats := mkMemStats {
  Alloc : Z;
  Sys : Z
}.

(** The body of the [ticker.C] case, for the sample [m]. *)
Definition monitor_tick (m : MemStats) (c : ShardedCache) : option ShardedCache :=
  let memRatio :=
    SFdiv prec64 emax64 (float64_of_uint (Alloc m)) (float64_of_uint (Sys m)) in
  if SFltb (maxMemoryPct c) memRatio then
    let evictionCount := EvictionBatchSize in
    let evictionCount :=
      if SFltb severityMark memRatio then evictionCount * 2 else evictionCount in
    evictBatch evictionCount c
  else Some c.

(** What the [select] of the monitor loop receives. *)
Inductive MonitorEvent :=
  | Tick (m : MemStats)
  | StopSignal.

(** The monitor loop over the events it receives; it returns at the first
    [StopSignal]. *)
Fixpoint monitorMemory (evs : list MonitorEvent) (c : ShardedCache)
  : option ShardedCache :=
  match evs with
  | [] => Some c
  | Tick m :: evs' => c' ← monitor_tick m c; monitorMemory evs' c'
  | StopSignal :: _ => Some c
  end.

(** * The HTTP handlers (package controllers)

    [PutCache] and [GetCache] over the one cache of the process,
    [CacheInstance], which the model threads as state.  What a handler
    reads from outside the program is an input of its call: whether the
    semaphore has room, the request method, the outcome of reading and
    decoding the body, the [key] query parameter, and whether the request
    context is done when the handler looks.  The [sync.Pool] objects are
    reset or overwritten in full before use and are not modelled. *)

Module PutRequest.
Record t := mk {
  Key : string;
  Value : string
}.
End PutRequest.

Module Response.
Record t := mk {
  Status : string;
  Message : string;
  Key : string;
  Value : string
}.
End Response.

(** ** The fixed response bodies *)

Definition dquote : string := String (Ascii.ascii_of_nat 34) EmptyString.

(** The JSON text of an object whose names and values need no escape. *)
Definition json_string (s : string) : string := dquote +:+ s +:+ dquote.

Definition json_object (fields : list (string * string)) : string :=
  "{" +:+ String.concat "," ((λ f, json_string f.1 +:+ ":" +:+ json_string f.2) <$> fields)
      +:+ "}".

Definition successPutResponseBytes : string :=
  json_object [("status", "OK"); ("message", "Key inserted/updated successfully.")].
Definition keyNotFoundResponseBytes : string :=
  json_object [("status", "ERROR"); ("message", "Key not found.")].
Definition methodNotAllowedResponseBytes : string :=
  json_object [("status", "ERROR"); ("message", "Method Not Allowed")].
Definition invalidJSONResponseBytes : string :=
  json_object [("status", "ERROR"); ("message", "Invalid JSON")].
Definition invalidKeyValueLengthResponseBytes : string :=
  json_object [("status", "ERROR");
               ("message", "Key and Value must be at most 256 characters")].
Definition missingKeyResponseBytes : string :=
  json_object [("status", "ERROR"); ("message", "Missing key parameter")].
Definition tooManyRequestsResponseBytes : string :=
  json_object [("status", "ERROR"); ("message", "Too many requests")].
Definition timeoutResponseBytes : string :=
  json_object [("status", "ERROR"); ("message", "Request timeout")].

(** ** Responses *)

(** What is written as the body: given bytes, or the line that
    [json.NewEncoder(buf).Encode(resp)] produces for [resp]. *)
Inductive Body :=
  | RawBody (b : string)
  | EncodedBody (resp : Response.t).

Record HttpResponse := mkHttpResponse {
  statusCode : Z;
  header : gmap string string;
  body : Body
}.

Definition StatusOK : Z := 200.
Definition StatusBadRequest : Z := 400.
Definition StatusNotFound : Z := 404.
Definition StatusMethodNotAllowed : Z := 405.
Definition StatusRequestTimeout : Z := 408.
Definition StatusTooManyRequests : Z := 429.

Definition writeJSONResponse (code : Z) (b : string) : HttpResponse :=
  mkHttpResponse code
    (<["Content-Length" := pretty (String.length b)]>
       (<["Connection" := "keep-alive"]>
          (<["Content-Type" := "application/json"]> ∅)))
    (RawBody b).

(** Encoding a struct of four strings does not fail, so the branch for an
    encoding error is not followed. *)
Definition writeResponse (code : Z) (resp : Response.t) : HttpResponse :=
  mkHttpResponse code
    (<["Connection" := "keep-alive"]> (<["Content-Type" := "application/json"]> ∅))
    (EncodedBody resp).

(** ** PutCache *)

Record PutCall := mkPutCall {
  (** the send on [semaphore] succeeds *)
  put_slot : bool;
  (** [r.Method] *)
  put_method : string;
  (** the [PutRequest] that [io.Copy] and [json.Unmarshal] fill, [None]
      when either returns an error *)
  put_decoded : option PutRequest.t;
  (** [ctx.Done()] is ready at the last [select] *)
  put_expired : bool
}.

Definition PutCache (q : PutCall) (c : ShardedCache)
  : option (HttpResponse * ShardedCache) :=
  if negb (put_slot q) then
    Some (writeJSONResponse StatusTooManyRequests tooManyRequestsResponseBytes, c)
  else if decide (put_method q ≠ "POST") then
    Some (writeJSONResponse StatusMethodNotAllowed methodNotAllowedResponseBytes, c)
  else
    match put_decoded q with
    | None => Some (writeJSONResponse StatusBadRequest invalidJSONResponseBytes, c)
    | Some req =>
        if decide (len (PutRequest.Key req) > 256 ∨ len (PutRequest.Value req) > 256) then
          Some (writeJSONResponse StatusBadRequest invalidKeyValueLengthResponseBytes, c)
        else if put_expired q then
          Some (writeJSONResponse StatusRequestTimeout timeoutResponseBytes, c)
        else
          c' ← Put (PutRequest.Key req) (PutRequest.Value req) c;
          Some (writeJSONResponse StatusOK successPutResponseBytes, c')
    end.

(** ** GetCache *)

Record GetCall := mkGetCall {
  (** the send on [semaphore] succeeds *)
  get_slot : bool;
  (** [r.URL.Query().Get("key")]: the first value of the parameter, empty
      when there is none *)
  get_key : string;
  (** [ctx.Done()] is ready at the [select] *)
  get_expired : bool
}.

Definition GetCache (q : GetCall) (c : ShardedCache)
  : option (HttpResponse * ShardedCache) :=
  if negb (get_slot q) then
    Some (writeJSONResponse StatusTooManyRequests tooManyRequestsResponseBytes, c)
  else if decide (get_key q = EmptyString) then
    Some (writeJSONResponse StatusBadRequest missingKeyResponseBytes, c)
  else if get_expired q then
    Some (writeJSONResponse StatusRequestTimeout timeoutResponseBytes, c)
  else
    '(val, found, c') ← Get (get_key q) c;
    if negb found then
      Some (writeJSONResponse StatusNotFound keyNotFoundResponseBytes, c')
    else
      Some (writeResponse StatusOK (Response.mk "OK" EmptyString (get_key q) val), c').

(** ** The server over time *)

(** What happens to the cache of a running server: requests and monitor
    wake-ups, one after the other. *)
Inductive Event :=
  | EvPut (q : PutCall)
  | EvGet (q : GetCall)
  | EvTick (m : MemStats).

Definition serve1 (e : Event) (c : ShardedCache) : option ShardedCache :=
  match e with
  | EvPut q => snd <$> PutCache q c
  | EvGet q => snd <$> GetCache q c
  | EvTick m => monitor_tick m c
  end.

Fixpoint serve (es : list Event) (c : ShardedCache) : option ShardedCache :=
  match es with
  | [] => Some c
  | e :: es' => c' ← serve1 e c; serve es' c'
  end.

(** The call passes every check of PutCache. *)
Definition accepted (q : PutCall) : Prop :=
  put_slot q = true ∧ put_method q = "POST" ∧ put_expired q = false
  ∧ ∃ req, put_decoded q = Some req
           ∧ len (PutRequest.Key req) <= 256 ∧ len (PutRequest.Value req) <= 256.

(** Every stored key and value is at most 256 bytes long. *)
Definition bounded (c : ShardedCache) : Prop :=
  ∀ s k v, s ∈ shards c → items s !! k = Some v → len k <= 256 ∧ len v <= 256.

(** * Specification vocabulary *)

(** ** Invariants *)

(** The addresses and the keys of the queue, front first. *)
Definition ptrs (l : list Element) : list nat := ptr <$> l.
Definition keys (l : list Element) : list string := (λ x, key (Value x)) <$> l.

(** The pairs (address, key) of the queue, front first. *)
Definition pks (l : list Element) : list (nat * string) :=
  (λ x, (ptr x, key (Value x))) <$> l.

(** The lookup map, the element index and the eviction queue describe the
    same set of keys, one queue node per key, and the clock hand is on a
    node of the queue exactly when there is one. *)
Record shard_inv (s : CacheShard) : Prop := mk_shard_inv {
  inv_ptrs : NoDup (ptrs (itemsList s));
  inv_keys : NoDup (keys (itemsList s));
  inv_items : ∀ k, is_Some (items s !! k) ↔ k ∈ keys (itemsList s);
  inv_elements : ∀ k e, elements s !! k = Some e ↔ (e, k) ∈ pks (itemsList s);
  inv_fresh : ∀ e, e ∈ ptrs (itemsList s) → (e < nextPtr s)%nat;
  inv_hand : match clockHand s with
             | None => itemsList s = []
             | Some h => h ∈ ptrs (itemsList s)
             end
}.

(** What the types and [NewCache] guarantee of a cache value: [shardCount]
    is the length of [shards], positive and within [uint32], and the
    counter is an [int64]. *)
Definition cache_wf (c : ShardedCache) : Prop :=
  shardCount c = Z.of_nat (length (shards c)) ∧ 0 < shardCount c < 2 ^ 32
  ∧ in_int64 (memUsage c).

Definition cache_inv (c : ShardedCache) : Prop :=
  cache_wf c ∧ Forall shard_inv (shards c).

(** Number of queue entries whose [referenced] bit is set. *)
Fixpoint refs (l : list Element) : Z :=
  match l with
  | [] => 0
  | x :: l' => (if referenced (Value x) then 1 else 0) + refs l'
  end.

(** What holds of the loop variables of [evict] at the loop head, for a
    sweep of [s0] asked for [count] evictions. *)
Record sweep_inv (s0 : CacheShard) (count : Z) (st : SweepState) : Prop := mk_sweep_inv {
  sw_shard_inv : shard_inv (sw_shard st);
  sw_nonempty : itemsList (sw_shard st) ≠ [];
  sw_len : evicted st + Len (itemsList (sw_shard st)) = Len (itemsList s0);
  sw_attempts :
    attempts st + refs (itemsList (sw_shard st)) = refs (itemsList s0) + evicted st;
  sw_evicted : 0 <= evicted st <= Z.max 0 count;
  sw_items : items (sw_shard st) ⊆ items s0;
  sw_order : pks (itemsList (sw_shard st)) `sublist_of` pks (itemsList s0);
  sw_attempts_nonneg : 0 <= attempts st
}.

(** What holds when [evict] returns. *)
Record sweep_post (s0 : CacheShard) (count : Z) (st : SweepState) : Prop := mk_sweep_post {
  sp_shard_inv : shard_inv (sw_shard st);
  sp_evicted : evicted st = Z.max 0 (Z.min count (Len (itemsList s0)));
  sp_len : evicted st + Len (itemsList (sw_shard st)) = Len (itemsList s0);
  sp_attempts : 0 <= attempts st <= Len (itemsList s0) * 2;
  sp_stop : evicted st = count
            ∨ (itemsList (sw_shard st) = [] ∧ clockHand (sw_shard st) = None)
            ∨ count <= 0;
  sp_items : items (sw_shard st) ⊆ items s0;
  sp_order : pks (itemsList (sw_shard st)) `sublist_of` pks (itemsList s0)
}.

(** ** Measures *)

Definition sumZ {A} (f : A → Z) (l : list A) : Z := foldr (λ x acc, f x + acc) 0 l.

(** Number of entries the cache holds. *)
Definition total_entries (c : ShardedCache) : Z :=
  sumZ (λ s, Len (itemsList s)) (shards c).

(** Sum of the [size] fields of the live entries. *)
Definition shard_size (s : CacheShard) : Z := sumZ (λ x, size (Value x)) (itemsList s).
Definition live_size (c : ShardedCache) : Z := sumZ shard_size (shards c).

(** [s'] holds a part of the entries of [s], in the same queue order and
    with the same values. *)
Definition shard_shrinks (s' s : CacheShard) : Prop :=
  items s' ⊆ items s ∧ pks (itemsList s') `sublist_of` pks (itemsList s).

(** ** Runs of operations *)

(** The calls a sequential client and the monitor make on the cache. *)
Inductive Op :=
  | OpGet (k : string)
  | OpPut (k v : string)
  | OpEvictBatch (count : Z).

(** One call, keeping the state it leaves. *)
Definition step (o : Op) (c : ShardedCache) : option ShardedCache :=
  match o with
  | OpGet k => snd <$> Get k c
  | OpPut k v => Put k v c
  | OpEvictBatch count => evictBatch count c
  end.

Fixpoint run (ops : list Op) (c : ShardedCache) : option ShardedCache :=
  match ops with
  | [] => Some c
  | o :: ops' => c' ← step o c; run ops' c'
  end.

(** No shard stores [k]. *)
Definition absent (k : string) (c : ShardedCache) : Prop :=
  ∀ s, s ∈ shards c → items s !! k = None.

(** The shard of [k] stores the value [v] for it. *)
Definition stored (k v : string) (c : ShardedCache) : Prop :=
  ∃ i s, getShard c k = Some i ∧ shards c !! i = Some s ∧ items s !! k = Some v.

(** An operation that neither evicts nor writes [k]. *)
Definition keeps (k : string) (o : Op) : Prop :=
  match o with
  | OpGet _ => True
  | OpPut k' _ => k' ≠ k
  | OpEvictBatch _ => False
  end.

(** The eviction queue of the shard of [k] has a node for [k]. *)
Definition queued (k : string) (c : ShardedCache) : Prop :=
  ∃ i s, getShard c k = Some i ∧ shards c !! i = Some s ∧ k ∈ keys (itemsList s).

(** The invariant in the words of the data model: every stored key has
    exactly one queue node, every queue node's key is stored, and the
    hand is on a queue node when there is one and is nil otherwise. *)
Definition key_node_bijection (s : CacheShard) : Prop :=
  (∀ k, is_Some (items s !! k) →
        ∃ j x, itemsList s !! j = Some x ∧ key (Value x) = k
               ∧ ∀ j' x', itemsList s !! j' = Some x' → key (Value x') = k → j' = j)
  ∧ (∀ x, x ∈ itemsList s → is_Some (items s !! key (Value x))).

Definition hand_live (s : CacheShard) : Prop :=
  (itemsList s ≠ [] → ∃ h, clockHand s = Some h ∧ h ∈ ptrs (itemsList s))
  ∧ (itemsList s = [] → clockHand s = None).

(** ** The cache up to its counter *)

(** Two caches that differ at most in [memUsage]. *)
Definition same_but_counter (c c' : ShardedCache) : Prop :=
  shards c = shards c' ∧ shardCount c = shardCount c'
  ∧ maxMemoryPct c = maxMemoryPct c'.

(** ** EvictBatch in the words of the coordinator's description *)

(** Visit the shards in turn with [Evict(perShard)], summing the results,
    until all have been visited or the running total reaches
    [totalCount]. *)
Fixpoint EvictBatch_shards (totalCount perShard running : Z) (ss : list CacheShard)
  : option (Z * list CacheShard) :=
  match ss with
  | [] => Some (running, [])
  | s :: rest =>
      if decide (totalCount <= running) then Some (running, ss)
      else
        '(n, s') ← evict perShard s;
        '(r, rest') ← EvictBatch_shards totalCount perShard (running + n) rest;
        Some (r, s' :: rest')
  end.

(** [perShard = max(1, totalCount / shardCount)], integer division. *)
Definition EvictBatch_spec (totalCount : Z) (c : ShardedCache)
  : option (Z * ShardedCache) :=
  let perShard := Z.max 1 (totalCount / shardCount c) in
  '(r, ss) ← EvictBatch_shards totalCount perShard 0 (shards c);
  Some (r, mkShardedCache ss (shardCount c) (maxMemoryPct c) (memUsage c)).

(** ** Particular states *)

(** The shard of a one-shard cache after Put("a","1"): one entry, its
    referenced bit set. *)
Definition shard_after_put_a : option CacheShard :=
  c ← Put "a" "1" (NewCacheN 1); shards c !! 0%nat.

(** The shard of a one-shard cache after Put("a","1") and Put("b","2"):
    two entries, both referenced bits set. *)
Definition shard_after_put_ab : option CacheShard :=
  c ← Put "a" "1" (NewCacheN 1); c' ← Put "b" "2" c; shards c' !! 0%nat.

(** The queue with every referenced bit cleared. *)
Definition clear (l : list Element) : list Element :=
  (λ x, mkElement (ptr x) (set_referenced false (Value x))) <$> l.

(** The queue that inserting the pairs [kvs] in order builds, the first
    node at address [p]. *)
Fixpoint fill (p : nat) (kvs : list (string * string)) : list Element :=
  match kvs with
  | [] => []
  | (k, v) :: rest => mkElement p (mkClockItem k true (len k + len v)) :: fill (S p) rest
  end.

Fixpoint put_all (kvs : list (string * string)) (c : ShardedCache)
  : option ShardedCache :=
  match kvs with
  | [] => Some c
  | (k, v) :: rest => c' ← Put k v c; put_all rest c'
  end.

(** The single shard of a cache into which the pairs [kvs], of distinct
    keys, were inserted in order, nothing else having happened. *)
Record filled (kvs : list (string * string)) (s : CacheShard) : Prop := mk_filled {
  f_inv : shard_inv s;
  f_list : itemsList s = fill 0 kvs;
  f_hand : clockHand s = Front (fill 0 kvs);
  f_items : ∀ k v, (k, v) ∈ kvs → items s !! k = Some v;
  f_next : nextPtr s = length kvs
}.

(** ** Accounting *)

(** Every entry's [size] is the length of its key plus the length of the
    value stored for it. *)
Definition sizes_ok (s : CacheShard) : Prop :=
  ∀ x, x ∈ itemsList s →
    ∃ v, items s !! key (Value x) = Some v
         ∧ size (Value x) = len (key (Value x)) + len v.

(** The counter is the sum of the live entries' sizes, as an [int64]. *)
Definition accounted (c : ShardedCache) : Prop :=
  memUsage c = wrap64 (live_size c).

(** The one-shard cache after Put("a","1"), written out. *)
Definition shard_a : CacheShard :=
  mkCacheShard {["a" := "1"]} {["a" := 0%nat]} (Some 0%nat)
               [mkElement 0 (mkClockItem "a" true 2)] 1.

Definition cache_a : ShardedCache :=
  mkShardedCache [shard_a] 1 MaxMemoryPercent 2.

(** ** Further vocabulary *)

(** The queue with the referenced bit of the node of [k] set. *)
Definition mark (k : string) (l : list Element) : list Element :=
  (λ x, if decide (key (Value x) = k)
        then mkElement (ptr x) (set_referenced true (Value x)) else x) <$> l.

(** [x'] is the node [x], its referenced bit possibly cleared. *)
Definition clears (x' x : Element) : Prop :=
  ptr x' = ptr x ∧ key (Value x') = key (Value x)
  ∧ size (Value x') = size (Value x)
  ∧ (referenced (Value x') = true → referenced (Value x) = true).

(** What Put(k, v) makes of the shard [s] of [k], and of the counter
    [m]. *)
Definition put_shard (k v : string) (s : CacheShard) : CacheShard :=
  match items s !! k with
  | Some _ =>
      let s1 := with_items (<[k := v]> (items s)) s in
      match elements s !! k with
      | Some e =>
          with_itemsList
            (updValue (set_referenced_size true (len k + len v)) e (itemsList s)) s1
      | None => s1
      end
  | None =>
      mkCacheShard (<[k := v]> (items s)) (<[k := nextPtr s]> (elements s))
                   (match clockHand s with
                    | None => Some (nextPtr s)
                    | Some h => Some h
                    end)
                   (PushBack (nextPtr s) (mkClockItem k true (len k + len v))
                             (itemsList s))
                   (S (nextPtr s))
  end.

Definition put_delta (k v : string) (s : CacheShard) : Z :=
  match items s !! k with
  | Some old => len v - len old
  | None => len k + len v
  end.

Definition put_mem (k v : string) (s : CacheShard) (m : Z) : Z :=
  match items s !! k with
  | Some old => if decide (len v - len old = 0) then m
                else AddInt64 m (len v - len old)
  | None => AddInt64 m (len k + len v)
  end.

(** An operation other than an eviction batch. *)
Definition no_evict (o : Op) : Prop :=
  match o with
  | OpEvictBatch _ => False
  | _ => True
  end.

(** Number of wake-ups the monitor serves before it stops. *)
Fixpoint ticks (evs : list MonitorEvent) : Z :=
  match evs with
  | [] => 0
  | Tick _ :: evs' => 1 + ticks evs'
  | StopSignal :: _ => 0
  end.

(** [r] is the queue of [s] read from the node under the clock hand
    round to the node before it. *)
Definition hand_view (s : CacheShard) (r : list Element) : Prop :=
  ∃ l1 l2, itemsList s = l1 ++ l2 ∧ r = l2 ++ l1 ∧ clockHand s = Front r.

(** Two states of a one-shard cache: three keys inserted, then the
    first evicted and the second read; and three keys inserted. *)
Definition cache_swept : option ShardedCache :=
  run [OpPut "a" "1"; OpPut "b" "2"; OpPut "c" "3"; OpEvictBatch 1; OpGet "b"]
      (NewCacheN 1).

Definition cache_abc : option ShardedCache :=
  run [OpPut "a" "1"; OpPut "b" "2"; OpPut "c" "3"] (NewCacheN 1).

(** Every node of [l'] is a node of [l], its referenced bit possibly
    cleared. *)
Definition survivors_of (l' l : list Element) : Prop :=
  ∀ x', x' ∈ l' → ∃ x, x ∈ l ∧ clears x' x.

(** * Properties *)

(** ** Machine integers *)

Lemma wrap64_id z : in_int64 z → wrap64 z = z.
Proof.
  unfold in_int64, wrap64. intros Hz.
  rewrite Z.mod_small by lia. lia.
Qed.

Lemma len_nonneg s : 0 <= len s.
Proof. unfold len. lia. Qed.

(** ** Constants and hash, checked on known values *)

Example MaxMemoryPercent_is_7_tenths :
  SFdiv prec64 emax64 (float64_of_uint 7) (float64_of_uint 10) = MaxMemoryPercent.
Proof. reflexivity. Qed.

Example severityMark_is_85_hundredths :
  SFdiv prec64 emax64 (float64_of_uint 85) (float64_of_uint 100) = severityMark.
Proof. reflexivity. Qed.

(** FNV-1 test vectors. *)
Example fnv32_a : fnv32 "a" = 0x050c5d7e.
Proof. reflexivity. Qed.

Example fnv32_foobar : fnv32 "foobar" = 0x31f0b262.
Proof. reflexivity. Qed.

Example getShard_a : getShard NewCache "a" = Some 382%nat.
Proof. reflexivity. Qed.

(** ** container/list *)

Lemma elemValue_split e l it :
  elemValue e l = Some it →
  ∃ l1 x l2, l = l1 ++ x :: l2 ∧ ptr x = e ∧ Value x = it ∧ e ∉ ptrs l1.
Proof.
  induction l as [|y l IH]; simpl; [done|].
  destruct (decide (ptr y = e)) as [Heq|Hne].
  - intros [= <-]. exists [], y, l. repeat split; [done|]. unfold ptrs. set_solver.
  - intros H. destruct (IH H) as (l1 & x & l2 & -> & Hp & Hv & Hn).
    exists (y :: l1), x, l2. repeat split; try done.
    unfold ptrs in *. set_solver.
Qed.

Lemma elemValue_in e l :
  e ∈ ptrs l → is_Some (elemValue e l).
Proof.
  induction l as [|y l IH]; simpl.
  - unfold ptrs. set_solver.
  - destruct (decide (ptr y = e)); [eauto|].
    intros H. apply IH. unfold ptrs in *. set_solver.
Qed.

Lemma NoDup_ptrs_split l1 x l2 :
  NoDup (ptrs (l1 ++ x :: l2)) → ptr x ∉ ptrs l1 ∧ ptr x ∉ ptrs l2 ∧ NoDup (ptrs (l1 ++ l2)).
Proof.
  unfold ptrs. rewrite !fmap_app, fmap_cons.
  intros H. apply NoDup_app in H as (H1 & H2 & H3).
  apply NoDup_cons in H3 as [H3 H4].
  repeat split.
  - intros Hin. apply (H2 _ Hin). set_solver.
  - done.
  - apply NoDup_app. repeat split; [done| |done].
    intros y Hy Hy'. apply (H2 _ Hy). set_solver.
Qed.

Lemma updValue_notin f e l : e ∉ ptrs l → updValue f e l = l.
Proof.
  unfold updValue, ptrs. induction l as [|y l IH]; simpl; [done|].
  intros H. rewrite decide_False by set_solver.
  f_equal. apply IH. set_solver.
Qed.

Lemma updValue_split f e l1 x l2 :
  ptr x = e → e ∉ ptrs l1 → e ∉ ptrs l2 →
  updValue f e (l1 ++ x :: l2) = l1 ++ mkElement e (f (Value x)) :: l2.
Proof.
  intros Hx H1 H2.
  pose proof (updValue_notin f e l1 H1) as E1.
  pose proof (updValue_notin f e l2 H2) as E2.
  unfold updValue in *. rewrite fmap_app, fmap_cons, E1, E2.
  rewrite decide_True by done. by rewrite Hx.
Qed.

Lemma ptrs_updValue f e l : ptrs (updValue f e l) = ptrs l.
Proof.
  unfold ptrs, updValue. rewrite <- list_fmap_compose.
  apply list_fmap_ext. intros i x _. simpl. by destruct (decide _).
Qed.

Lemma Remove_notin e l : e ∉ ptrs l → Remove e l = l.
Proof.
  unfold Remove, ptrs. induction l as [|y l IH]; [done|].
  intros H. rewrite filter_cons_True by set_solver.
  f_equal. apply IH. set_solver.
Qed.

Lemma Remove_split e l1 x l2 :
  ptr x = e → e ∉ ptrs l1 → e ∉ ptrs l2 → Remove e (l1 ++ x :: l2) = l1 ++ l2.
Proof.
  intros Hx H1 H2.
  pose proof (Remove_notin e l1 H1) as E1.
  pose proof (Remove_notin e l2 H2) as E2.
  unfold Remove in *. rewrite filter_app, filter_cons_False, E1, E2; [done|].
  intros Hn. by apply Hn.
Qed.

Lemma Next_split e l1 x l2 :
  ptr x = e → e ∉ ptrs l1 → Next e (l1 ++ x :: l2) = Front l2.
Proof.
  intros Hx. unfold ptrs. induction l1 as [|y l1 IH]; simpl; intros H.
  - by rewrite decide_True.
  - rewrite decide_False by set_solver. apply IH. set_solver.
Qed.

(** With the hand on [x], the successor in the circular order is the front
    of the queue rotated past [x]. *)
Lemma nextOrFirst_split e l1 x l2 :
  ptr x = e → e ∉ ptrs l1 →
  nextOrFirst e (l1 ++ x :: l2) = Front (l2 ++ l1 ++ [x]).
Proof.
  intros Hx H1. unfold nextOrFirst. rewrite Next_split by done.
  destruct l2 as [|y l2]; simpl; [|done].
  unfold Front. by destruct l1.
Qed.

Lemma Front_in l e : Front l = Some e → e ∈ ptrs l.
Proof.
  unfold Front, ptrs. destruct l as [|x l]; simpl; [done|].
  intros [= <-]. set_solver.
Qed.

Lemma Front_app_nonempty l l' : l ≠ [] → Front (l ++ l') = Front l.
Proof. by destruct l. Qed.

Lemma Front_is_Some l : l ≠ [] → is_Some (Front l).
Proof. destruct l; [done|]. unfold Front. simpl. eauto. Qed.

Lemma elemValue_at l1 x l2 :
  ptr x ∉ ptrs l1 → elemValue (ptr x) (l1 ++ x :: l2) = Some (Value x).
Proof.
  unfold ptrs. induction l1 as [|y l1 IH]; simpl; intros H.
  - by rewrite decide_True.
  - rewrite decide_False by set_solver. apply IH. set_solver.
Qed.

Lemma in_ptrs_split e l :
  e ∈ ptrs l → ∃ l1 x l2, l = l1 ++ x :: l2 ∧ ptr x = e ∧ e ∉ ptrs l1.
Proof.
  intros H. destruct (elemValue_in e l H) as [it Hit].
  destruct (elemValue_split e l it Hit) as (l1 & x & l2 & ? & ? & ? & ?).
  by exists l1, x, l2.
Qed.

Lemma ptrs_pks l : ptrs l = (pks l).*1.
Proof. unfold ptrs, pks. by rewrite <- list_fmap_compose. Qed.

Lemma keys_pks l : keys l = (pks l).*2.
Proof. unfold keys, pks. by rewrite <- list_fmap_compose. Qed.

Lemma pks_updValue f e l :
  (∀ it, key (f it) = key it) → pks (updValue f e l) = pks l.
Proof.
  intros Hf. unfold pks, updValue. rewrite <- list_fmap_compose.
  apply list_fmap_ext. intros i x _. simpl. destruct (decide _); simpl; [|done].
  by rewrite Hf.
Qed.

(** ** One step of the sweep, with the hand on [x] *)

Section sweep_step.
Variables (st : SweepState) (l1 l2 : list Element) (x : Element).
Hypothesis Hlist : itemsList (sw_shard st) = l1 ++ x :: l2.
Hypothesis Hhand : clockHand (sw_shard st) = Some (ptr x).
Hypothesis Hnodup : NoDup (ptrs (itemsList (sw_shard st))).

Lemma evict_body_second_chance :
  referenced (Value x) = true →
  let x' := mkElement (ptr x) (set_referenced false (Value x)) in
  evict_body st =
    Some (mkSweep
            (mkCacheShard (items (sw_shard st)) (elements (sw_shard st))
                          (Front (l2 ++ l1 ++ [x'])) (l1 ++ x' :: l2)
                          (nextPtr (sw_shard st)))
            (evicted st) (attempts st + 1), false).
Proof.
  intros Href x'. unfold evict_body.
  rewrite Hlist in Hnodup. destruct (NoDup_ptrs_split _ _ _ Hnodup) as (H1 & H2 & _).
  rewrite Hhand, Hlist. simpl. rewrite elemValue_at by done. simpl.
  rewrite Href. rewrite updValue_split by done.
  by rewrite (nextOrFirst_split (ptr x) l1 x') by done.
Qed.

Lemma evict_body_remove :
  referenced (Value x) = false →
  let k := key (Value x) in
  let m := delete k (items (sw_shard st)) in
  let el := delete k (elements (sw_shard st)) in
  evict_body st =
    Some (if decide (l1 ++ l2 = [])
          then (mkSweep (mkCacheShard m el None [] (nextPtr (sw_shard st)))
                        (evicted st + 1) (attempts st + 1), true)
          else (mkSweep (mkCacheShard m el (Front (l2 ++ l1)) (l1 ++ l2)
                                      (nextPtr (sw_shard st)))
                        (evicted st + 1) (attempts st + 1), false)).
Proof.
  intros Href k m el. unfold evict_body.
  rewrite Hlist in Hnodup. destruct (NoDup_ptrs_split _ _ _ Hnodup) as (H1 & H2 & _).
  rewrite Hhand, Hlist. simpl. rewrite elemValue_at by done. simpl.
  rewrite Href. rewrite Remove_split by done.
  rewrite nextOrFirst_split by done.
  destruct (decide (l1 ++ l2 = [])) as [He|Hne].
  - rewrite He. done.
  - rewrite decide_False.
    2:{ unfold Len. destruct (l1 ++ l2); [done|simpl; lia]. }
    do 3 f_equal. f_equal.
    rewrite app_assoc. apply Front_app_nonempty.
    destruct l2; [|done]. by rewrite app_nil_r in Hne.
Qed.
End sweep_step.

(** ** The shard invariant *)

Lemma emptyShard_inv : shard_inv emptyShard.
Proof.
  constructor; simpl; try by constructor.
  - intros k. rewrite lookup_empty. split; [by intros [? ?]|]. set_solver.
  - intros k e. rewrite lookup_empty. set_solver.
  - set_solver.
Qed.

Lemma shard_inv_same_pks s s' :
  shard_inv s →
  pks (itemsList s') = pks (itemsList s) →
  (∀ k, is_Some (items s' !! k) ↔ is_Some (items s !! k)) →
  elements s' = elements s → clockHand s' = clockHand s → nextPtr s' = nextPtr s →
  shard_inv s'.
Proof.
  intros [] Hp Hi He Hh Hn.
  assert (ptrs (itemsList s') = ptrs (itemsList s)) as Hptrs
    by (by rewrite !ptrs_pks, Hp).
  assert (keys (itemsList s') = keys (itemsList s)) as Hkeys
    by (by rewrite !keys_pks, Hp).
  constructor; rewrite ?Hptrs, ?Hkeys, ?Hp, ?He, ?Hh, ?Hn; try done.
  - intros k. by rewrite Hi.
  - destruct (clockHand s); [done|].
    apply (f_equal length) in Hp. unfold pks in Hp. rewrite !length_fmap in Hp.
    rewrite inv_hand0 in Hp. by destruct (itemsList s').
Qed.

(** Writing the [referenced] and [size] fields of a payload keeps the
    invariant. *)
Lemma touch_inv f e s :
  (∀ it, key (f it) = key it) →
  shard_inv s → shard_inv (with_itemsList (updValue f e (itemsList s)) s).
Proof.
  intros Hf Hs. apply (shard_inv_same_pks s); try done.
  simpl. by apply pks_updValue.
Qed.

Lemma keys_app l1 l2 : keys (l1 ++ l2) = keys l1 ++ keys l2.
Proof. unfold keys. by rewrite fmap_app. Qed.

Lemma ptrs_app l1 l2 : ptrs (l1 ++ l2) = ptrs l1 ++ ptrs l2.
Proof. unfold ptrs. by rewrite fmap_app. Qed.

Lemma pks_app l1 l2 : pks (l1 ++ l2) = pks l1 ++ pks l2.
Proof. unfold pks. by rewrite fmap_app. Qed.

Lemma pks_in_keys e k l : (e, k) ∈ pks l → k ∈ keys l.
Proof.
  rewrite keys_pks. intros H. apply list_elem_of_fmap. by exists (e, k).
Qed.

Lemma pks_in_ptrs e k l : (e, k) ∈ pks l → e ∈ ptrs l.
Proof.
  rewrite ptrs_pks. intros H. apply list_elem_of_fmap. by exists (e, k).
Qed.

(** [Put] of a key that is not stored. *)
Lemma put_new_inv s k v sz :
  shard_inv s → items s !! k = None →
  shard_inv (mkCacheShard (<[k := v]> (items s)) (<[k := nextPtr s]> (elements s))
               (match clockHand s with None => Some (nextPtr s) | Some h => Some h end)
               (PushBack (nextPtr s) (mkClockItem k true sz) (itemsList s))
               (S (nextPtr s))).
Proof.
  intros [] Hk.
  assert (k ∉ keys (itemsList s)) as Hnk.
  { intros Hin. apply inv_items0 in Hin. rewrite Hk in Hin. by destruct Hin. }
  assert (nextPtr s ∉ ptrs (itemsList s)) as Hnp.
  { intros Hin. apply inv_fresh0 in Hin. lia. }
  unfold PushBack.
  constructor; simpl; rewrite ?ptrs_app, ?keys_app, ?pks_app; simpl.
  - apply NoDup_app. repeat split; [done| |apply NoDup_singleton].
    intros e He. set_solver.
  - apply NoDup_app. repeat split; [done| |apply NoDup_singleton].
    intros e He. set_solver.
  - intros k'. rewrite elem_of_app, <- inv_items0.
    destruct (decide (k = k')) as [->|Hne].
    + rewrite lookup_insert_eq. split; [set_solver|eauto].
    + rewrite lookup_insert_ne by done. set_solver.
  - intros k' e. rewrite elem_of_app, <- inv_elements0.
    destruct (decide (k = k')) as [->|Hne].
    + rewrite lookup_insert_eq. split.
      * intros [= <-]. set_solver.
      * intros [He|He]; [|set_solver].
        apply inv_elements0, pks_in_keys in He. done.
    + rewrite lookup_insert_ne by done. set_solver.
  - intros e [He|He]%elem_of_app.
    + apply inv_fresh0 in He. lia.
    + apply list_elem_of_singleton in He. lia.
  - destruct (clockHand s); set_solver.
Qed.

(** ** The sweep keeps the invariant *)

Lemma refs_app l1 l2 : refs (l1 ++ l2) = refs l1 + refs l2.
Proof. induction l1 as [|x l1 IH]; simpl; lia. Qed.

Lemma refs_bounds l : 0 <= refs l <= Len l.
Proof.
  unfold Len. induction l as [|x l IH]; simpl length; simpl refs; [lia|].
  destruct (referenced (Value x)); lia.
Qed.

Lemma Len_app l1 l2 : Len (l1 ++ l2) = Len l1 + Len l2.
Proof. unfold Len. rewrite length_app. lia. Qed.

Lemma Len_nonneg l : 0 <= Len l.
Proof. unfold Len. lia. Qed.

(** Second chance: the bit of the entry under the hand is cleared and the
    hand moves on. *)
Lemma second_chance_inv s l1 x l2 :
  shard_inv s → itemsList s = l1 ++ x :: l2 →
  let x' := mkElement (ptr x) (set_referenced false (Value x)) in
  shard_inv (mkCacheShard (items s) (elements s) (Front (l2 ++ l1 ++ [x']))
                          (l1 ++ x' :: l2) (nextPtr s)).
Proof.
  intros Hs Hl x'.
  assert (pks (l1 ++ x' :: l2) = pks (itemsList s)) as Hp.
  { rewrite Hl, !pks_app. done. }
  pose proof (shard_inv_same_pks s
    (mkCacheShard (items s) (elements s) (clockHand s) (l1 ++ x' :: l2) (nextPtr s))
    Hs Hp (λ _, reflexivity _) eq_refl eq_refl eq_refl) as [].
  constructor; try done. simpl in *.
  destruct (Front_is_Some (l2 ++ l1 ++ [x'])) as [h Hh]; [by destruct l2, l1|].
  rewrite Hh. apply Front_in in Hh.
  rewrite !ptrs_app in *. simpl in *. set_solver.
Qed.

(** Eviction: the entry under the hand leaves the map, the index and the
    queue, and the hand moves to its successor. *)
Lemma remove_inv s l1 x l2 :
  shard_inv s → itemsList s = l1 ++ x :: l2 →
  let k := key (Value x) in
  shard_inv (mkCacheShard (delete k (items s)) (delete k (elements s))
                          (Front (l2 ++ l1)) (l1 ++ l2) (nextPtr s)).
Proof.
  intros [] Hl k. rewrite Hl in *.
  rewrite ?ptrs_app, ?keys_app, ?pks_app in *. simpl in *.
  apply NoDup_app in inv_ptrs0 as (Hp1 & Hp2 & Hp3).
  apply NoDup_cons in Hp3 as [Hp3 Hp4].
  apply NoDup_app in inv_keys0 as (Hk1 & Hk2 & Hk3).
  apply NoDup_cons in Hk3 as [Hk3 Hk4]. fold k in Hk2, Hk3.
  assert (k ∉ keys l1) as Hk5 by (intros Hin; apply (Hk2 _ Hin); set_solver).
  constructor; simpl; rewrite ?ptrs_app, ?keys_app, ?pks_app.
  - apply NoDup_app. repeat split; [done| |done].
    intros e He He'. apply (Hp2 _ He). set_solver.
  - apply NoDup_app. repeat split; [done| |done].
    intros e He He'. apply (Hk2 _ He). set_solver.
  - intros k'. destruct (decide (k = k')) as [<-|Hne].
    + rewrite lookup_delete_eq. split; [by intros [? ?]|set_solver].
    + rewrite lookup_delete_ne by done. rewrite inv_items0. set_solver.
  - intros k' e. destruct (decide (k = k')) as [<-|Hne].
    + rewrite lookup_delete_eq. split; [done|].
      intros [He|He]%elem_of_app; apply pks_in_keys in He; done.
    + rewrite lookup_delete_ne by done. rewrite inv_elements0.
      rewrite !elem_of_app, elem_of_cons. fold k. split; [|tauto].
      intros [?|[[= ? ?]|?]]; [tauto|done|tauto].
  - intros e He. apply inv_fresh0. set_solver.
  - destruct (Front (l2 ++ l1)) as [h|] eqn:Hh.
    + apply Front_in in Hh. rewrite ptrs_app in Hh. set_solver.
    + by destruct l2, l1.
Qed.

Lemma sweep_hand s :
  shard_inv s → itemsList s ≠ [] →
  ∃ l1 x l2, itemsList s = l1 ++ x :: l2 ∧ clockHand s = Some (ptr x).
Proof.
  intros [] Hne. destruct (clockHand s) as [h|]; [|done].
  destruct (in_ptrs_split h _ inv_hand0) as (l1 & x & l2 & ? & <- & ?).
  by exists l1, x, l2.
Qed.

(** One iteration from a loop head whose guard holds. *)
Lemma evict_body_inv s0 count st :
  sweep_inv s0 count st → evicted st < count →
  ∃ st' brk, evict_body st = Some (st', brk) ∧
    attempts st' = attempts st + 1 ∧
    if brk : bool
    then sweep_post s0 count st'
    else sweep_inv s0 count st'.
Proof.
  intros [Hinv Hne Hlen Hatt Hev Hit Hord Hatt0] Hguard.
  destruct (sweep_hand _ Hinv Hne) as (l1 & x & l2 & Hl & Hh).
  pose proof (inv_ptrs _ Hinv) as Hnd.
  pose proof (refs_bounds (itemsList s0)) as Hr0.
  destruct (referenced (Value x)) eqn:Href.
  - rewrite (evict_body_second_chance st l1 l2 x Hl Hh Hnd Href).
    eexists _, false. split; [done|]. split; [done|].
    constructor; simpl.
    + by apply second_chance_inv.
    + by destruct l1.
    + rewrite Hl, !Len_app in Hlen. rewrite !Len_app. unfold Len in *.
      simpl length in *. lia.
    + rewrite Hl, !refs_app in Hatt. rewrite !refs_app. simpl refs in *.
      rewrite Href in Hatt. lia.
    + done.
    + done.
    + rewrite Hl in Hord. by rewrite !pks_app in *.
    + lia.
  - rewrite (evict_body_remove st l1 l2 x Hl Hh Hnd Href).
    assert (delete (key (Value x)) (items (sw_shard st)) ⊆ items s0) as Hsub.
    { etrans; [apply delete_subseteq|done]. }
    assert (Len (itemsList (sw_shard st)) = Len (l1 ++ l2) + 1) as HL.
    { rewrite Hl, !Len_app. unfold Len. simpl length. lia. }
    pose proof (Len_nonneg (l1 ++ l2)) as HL0.
    destruct (decide (l1 ++ l2 = [])) as [He|Hne'].
    + eexists _, true. split; [done|]. split; [done|].
      rewrite He in HL. change (Len []) with 0 in HL.
      constructor; simpl.
      * pose proof (remove_inv _ l1 x l2 Hinv Hl) as Hr. rewrite He in Hr.
        apply app_eq_nil in He as [-> ->]. exact Hr.
      * lia.
      * change (Len []) with 0. lia.
      * pose proof (refs_bounds (itemsList (sw_shard st))). lia.
      * right. by left.
      * done.
      * apply sublist_nil_l.
    + eexists _, false. split; [done|]. split; [done|].
      constructor; simpl.
      * by apply remove_inv.
      * done.
      * lia.
      * rewrite Hl, !refs_app in Hatt. rewrite !refs_app. simpl refs in *.
        rewrite Href in Hatt. lia.
      * lia.
      * done.
      * etrans; [|exact Hord]. rewrite Hl, !pks_app.
        apply sublist_app; [done|]. by apply sublist_cons.
      * lia.
Qed.

Lemma sweep_inv_exit s0 count st :
  sweep_inv s0 count st →
  ¬ (evicted st < count ∧ attempts st < Len (itemsList s0) * 2) →
  sweep_post s0 count st.
Proof.
  intros [Hinv Hne Hlen Hatt Hev Hit Hord Hatt0] Hguard.
  pose proof (refs_bounds (itemsList s0)).
  pose proof (refs_bounds (itemsList (sw_shard st))).
  assert (1 <= Len (itemsList (sw_shard st))).
  { unfold Len. destruct (itemsList (sw_shard st)); [done|]. simpl length. lia. }
  constructor; try done; lia.
Qed.

(** The loop of [evict] runs to its end within the fuel it is given and
    establishes [sweep_post]. *)
Lemma evict_loop_post s0 count fuel : ∀ st,
  sweep_inv s0 count st →
  (Len (itemsList s0) * 2 - attempts st <= Z.of_nat fuel) →
  ∃ st', evict_loop fuel count (Len (itemsList s0) * 2) st = Some st'
         ∧ sweep_post s0 count st'.
Proof.
  induction fuel as [|fuel IH]; intros st Hinv Hfuel; simpl.
  - destruct (decide _) as [[? ?]|Hg]; [lia|].
    exists st. split; [done|]. by apply sweep_inv_exit.
  - destruct (decide _) as [[Hc Ha]|Hg].
    2:{ exists st. split; [done|]. by apply sweep_inv_exit. }
    destruct (evict_body_inv s0 count st Hinv Hc) as (st' & brk & -> & Hatt & Hst').
    simpl. destruct brk.
    + by exists st'.
    + apply IH; [done|]. lia.
Qed.

Lemma sweep_post_empty s count :
  shard_inv s → itemsList s = [] → sweep_post s count (mkSweep s 0 0).
Proof.
  intros Hs Hl. pose proof (inv_hand _ Hs) as Hh.
  constructor; simpl; rewrite ?Hl; try done;
    try (change (Len []) with 0; lia).
  right. left. split; [done|]. destruct (clockHand s); [|done].
  rewrite Hl in Hh. by apply elem_of_nil in Hh.
Qed.

Lemma evict_run_post count s :
  shard_inv s → ∃ st, evict_run count s = Some st ∧ sweep_post s count st.
Proof.
  intros Hs. unfold evict_run.
  destruct (decide _) as [Hempty|Hne].
  - exists (mkSweep s 0 0). split; [done|]. apply sweep_post_empty; [done|].
    destruct Hempty as [Hh|Hlen].
    + pose proof (inv_hand _ Hs) as Hi. by rewrite Hh in Hi.
    + unfold Len in Hlen. destruct (itemsList s); [done|]. simpl in Hlen. lia.
  - apply evict_loop_post.
    + constructor; simpl; try done; try lia.
      intros Hl. apply Hne. right. by rewrite Hl.
    + simpl. pose proof (Len_nonneg (itemsList s)). lia.
Qed.

(** ** Routing *)

Lemma wrap64_range z : in_int64 (wrap64 z).
Proof.
  unfold in_int64, wrap64.
  pose proof (Z.mod_pos_bound (z + 2 ^ 63) (2 ^ 64) ltac:(lia)). lia.
Qed.

Lemma getShard_wf c k :
  cache_wf c → ∃ i s, getShard c k = Some i ∧ shards c !! i = Some s.
Proof.
  intros (Hlen & Hsc & _). unfold getShard.
  rewrite (Z.mod_small (shardCount c)) by lia.
  rewrite decide_False by lia.
  pose proof (Z.mod_pos_bound (fnv32 k) (shardCount c) ltac:(lia)) as Hb.
  destruct (lookup_lt_is_Some_2 (shards c) (Z.to_nat (fnv32 k mod shardCount c)))
    as [s Hs]; [lia|].
  eauto.
Qed.

Lemma with_shard_wf i s c : cache_wf c → cache_wf (with_shard i s c).
Proof.
  intros (Hlen & Hsc & Hm). unfold cache_wf. simpl. by rewrite length_insert.
Qed.

Lemma with_shard_inv i s c :
  cache_inv c → shard_inv s → cache_inv (with_shard i s c).
Proof.
  intros [Hwf Hall] Hs. split; [by apply with_shard_wf|].
  simpl. destruct (decide (i < length (shards c))%nat).
  - by apply Forall_insert.
  - by rewrite list_insert_ge by lia.
Qed.

Lemma with_memUsage_inv m c :
  in_int64 m → cache_inv c → cache_inv (with_memUsage m c).
Proof.
  intros Hm [(? & ? & ?) ?]. unfold cache_inv, cache_wf. simpl. tauto.
Qed.

Lemma cache_inv_shard c i s : cache_inv c → shards c !! i = Some s → shard_inv s.
Proof. intros [_ Hall] Hs. by eapply Forall_lookup_1. Qed.

Lemma NewCacheN_wf n : (0 < n)%nat → Z.of_nat n < 2 ^ 32 → cache_wf (NewCacheN n).
Proof.
  intros Hn Hn'. unfold cache_wf, NewCacheN, in_int64. simpl.
  rewrite length_replicate. lia.
Qed.

Lemma NewCacheN_inv n : (0 < n)%nat → Z.of_nat n < 2 ^ 32 → cache_inv (NewCacheN n).
Proof.
  intros Hn Hn'. split; [by apply NewCacheN_wf|].
  simpl. apply Forall_replicate, emptyShard_inv.
Qed.

(** ** Get and Put keep the invariant *)

Lemma Get_inv k c :
  cache_inv c → ∃ v b c', Get k c = Some (v, b, c') ∧ cache_inv c'.
Proof.
  intros Hc. destruct (getShard_wf c k (proj1 Hc)) as (i & s & Hi & Hs).
  pose proof (cache_inv_shard _ _ _ Hc Hs) as Hsi.
  unfold Get. rewrite Hi. simpl. rewrite Hs. simpl.
  destruct (items s !! k) as [val|]; [|by eauto].
  eexists _, _, _. split; [done|].
  apply with_shard_inv; [done|].
  destruct (elements s !! k); [|done].
  by apply touch_inv.
Qed.

Lemma Put_inv k v c :
  cache_inv c → ∃ c', Put k v c = Some c' ∧ cache_inv c'.
Proof.
  intros Hc. destruct (getShard_wf c k (proj1 Hc)) as (i & s & Hi & Hs).
  pose proof (cache_inv_shard _ _ _ Hc Hs) as Hsi.
  unfold Put. rewrite Hi. simpl. rewrite Hs. simpl.
  destruct (items s !! k) as [oldVal|] eqn:Hk.
  - eexists. split; [done|].
    apply with_memUsage_inv.
    { destruct (decide _); [apply Hc|apply wrap64_range]. }
    apply with_shard_inv; [done|].
    assert (shard_inv (with_items (<[k:=v]> (items s)) s)) as Hs1.
    { apply (shard_inv_same_pks s); try done.
      intros k'. simpl. destruct (decide (k = k')) as [<-|Hne].
      - rewrite lookup_insert_eq, Hk. split; eauto.
      - by rewrite lookup_insert_ne. }
    destruct (elements s !! k); [|done].
    by apply (touch_inv (set_referenced_size true (len k + len v)) _ _
                (λ _, eq_refl) Hs1).
  - eexists. split; [done|].
    apply with_memUsage_inv; [apply wrap64_range|].
    apply with_shard_inv; [done|].
    by apply put_new_inv.
Qed.

(** ** Counting entries and bytes *)

Lemma sumZ_app {A} (f : A → Z) l1 l2 : sumZ f (l1 ++ l2) = sumZ f l1 + sumZ f l2.
Proof. induction l1 as [|x l1 IH]; simpl; lia. Qed.

Lemma sumZ_insert {A} (f : A → Z) l i x y :
  l !! i = Some x → sumZ f (<[i := y]> l) = sumZ f l - f x + f y.
Proof.
  revert i. induction l as [|z l IH]; intros [|i]; simpl; try done.
  - intros [= ->]. lia.
  - intros H. rewrite (IH _ H). lia.
Qed.

Lemma shard_shrinks_refl s : shard_shrinks s s.
Proof. by split. Qed.

Lemma shard_shrinks_trans s1 s2 s3 :
  shard_shrinks s1 s2 → shard_shrinks s2 s3 → shard_shrinks s1 s3.
Proof. intros [? ?] [? ?]. split; by etrans. Qed.

(** ** evict and evictBatch *)

Lemma evict_post count s :
  shard_inv s →
  ∃ n s', evict count s = Some (n, s') ∧ shard_inv s'
    ∧ n = Z.max 0 (Z.min count (Len (itemsList s)))
    ∧ n + Len (itemsList s') = Len (itemsList s)
    ∧ shard_shrinks s' s.
Proof.
  intros Hs. destruct (evict_run_post count s Hs) as (st & Hrun & []).
  unfold evict. rewrite Hrun. simpl.
  eexists _, _. by split_and!.
Qed.

Lemma evictBatch_loop_post count q fuel : ∀ i ev c,
  cache_inv c → 0 <= i → shardCount c - i <= Z.of_nat fuel → 1 <= q →
  ∃ ev' c', evictBatch_loop fuel count q i ev c = Some (ev', c')
    ∧ cache_inv c'
    ∧ ev <= ev'
    ∧ total_entries c' + (ev' - ev) = total_entries c
    ∧ memUsage c' = memUsage c ∧ shardCount c' = shardCount c
    ∧ maxMemoryPct c' = maxMemoryPct c
    ∧ (∀ j s', shards c' !! j = Some s' →
          ∃ s, shards c !! j = Some s ∧ shard_shrinks s' s)
    ∧ (ev <= count → ev <= i * q → q = 1 ∨ q * shardCount c <= count →
       ev' <= count).
Proof.
  induction fuel as [|fuel IH]; intros i ev c Hc Hi Hfuel Hq; simpl.
  - rewrite decide_False by lia.
    eexists _, _. split; [done|]. split_and!; try done; try lia.
    intros j s' Hj. exists s'. split; [done|apply shard_shrinks_refl].
  - destruct (decide _) as [[Hlt Hev]|Hg].
    2:{ eexists _, _. split; [done|]. split_and!; try done; try lia.
        intros j s' Hj. exists s'. split; [done|apply shard_shrinks_refl]. }
    pose proof Hc as [(Hlen & Hsc & Hm) Hall].
    destruct (lookup_lt_is_Some_2 (shards c) (Z.to_nat i)) as [s Hs]; [lia|].
    rewrite Hs. simpl.
    destruct (evict_post q s (cache_inv_shard _ _ _ Hc Hs))
      as (n & s1 & -> & Hs1 & Hn & Hlen1 & Hshr).
    simpl.
    destruct (IH (i + 1) (ev + n) (with_shard (Z.to_nat i) s1 c))
      as (ev' & c' & -> & Hc' & Hev' & Htot & Hmem & Hcnt & Hpct & Hsub & Hbound);
      [by apply with_shard_inv|lia|simpl; lia|done|].
    simpl in *.
    pose proof (Len_nonneg (itemsList s)).
    eexists _, _. split; [done|]. split_and!; try done; try lia.
    + unfold total_entries in *. simpl in Htot.
      rewrite (sumZ_insert _ _ _ s) in Htot by done. lia.
    + intros j s' Hj. destruct (Hsub j s' Hj) as (s2 & Hs2 & Hshr2).
      destruct (decide (j = Z.to_nat i)) as [->|Hne].
      * rewrite list_lookup_insert_eq in Hs2 by (by eapply lookup_lt_Some).
        injection Hs2 as <-. exists s. split; [done|].
        by eapply shard_shrinks_trans.
      * rewrite list_lookup_insert_ne in Hs2 by done. by exists s2.
    + intros H1 H2 H3. apply Hbound; [| |done].
      * destruct H3 as [->|H3]; [lia|]. nia.
      * nia.
Qed.

Lemma evictBatch_run_post count c :
  cache_inv c →
  ∃ ev c', evictBatch_run count c = Some (ev, c')
    ∧ cache_inv c'
    ∧ 0 <= ev
    ∧ total_entries c' + ev = total_entries c
    ∧ memUsage c' = memUsage c ∧ shardCount c' = shardCount c
    ∧ maxMemoryPct c' = maxMemoryPct c
    ∧ (∀ j s', shards c' !! j = Some s' →
          ∃ s, shards c !! j = Some s ∧ shard_shrinks s' s)
    ∧ (0 <= count → ev <= count).
Proof.
  intros Hc. pose proof Hc as [(Hlen & Hsc & Hm) Hall].
  unfold evictBatch_run. rewrite decide_False by lia.
  set (q := if decide (count `quot` shardCount c < 1) then 1
            else count `quot` shardCount c).
  assert (1 <= q) as Hq by (unfold q; destruct (decide _); lia).
  destruct (evictBatch_loop_post count q (Z.to_nat (shardCount c)) 0 0 c)
    as (ev & c' & -> & Hc' & Hev & Htot & Hmem & Hcnt & Hpct & Hsub & Hbound);
    [done|lia|lia|done|].
  eexists _, _. split; [done|]. split_and!; try done; try lia.
  intros Hcount. apply Hbound; [lia|lia|].
  unfold q. destruct (decide _); [by left|right].
  rewrite Z.quot_div_nonneg by lia.
  rewrite Z.mul_comm. apply Z.mul_div_le. lia.
Qed.

(** ** Shape of the state after Get and Put *)

Lemma Put_unfold k v c i s :
  getShard c k = Some i → shards c !! i = Some s →
  ∃ s' m, Put k v c = Some (mkShardedCache (<[i := s']> (shards c)) (shardCount c)
                                          (maxMemoryPct c) m)
    ∧ items s' = <[k := v]> (items s)
    ∧ m = match items s !! k with
          | Some old => if decide (len v - len old = 0) then memUsage c
                        else AddInt64 (memUsage c) (len v - len old)
          | None => AddInt64 (memUsage c) (len k + len v)
          end.
Proof.
  intros Hi Hs. unfold Put. rewrite Hi. simpl. rewrite Hs. simpl.
  destruct (items s !! k) as [old|].
  - eexists _, _. split; [done|]. split; [|done].
    by destruct (elements s !! k).
  - eexists _, _. by split.
Qed.

Lemma Get_unfold k c i s :
  getShard c k = Some i → shards c !! i = Some s →
  match items s !! k with
  | Some val =>
      ∃ s', Get k c = Some (val, true, with_shard i s' c)
            ∧ items s' = items s ∧ pks (itemsList s') = pks (itemsList s)
  | None => Get k c = Some (EmptyString, false, c)
  end.
Proof.
  intros Hi Hs. unfold Get. rewrite Hi. simpl. rewrite Hs. simpl.
  destruct (items s !! k) as [val|]; [|done].
  eexists. split; [done|].
  destruct (elements s !! k); [|done]. simpl. split; [done|].
  by apply pks_updValue.
Qed.

(** ** Runs of operations *)

Lemma absent_NewCacheN n k : absent k (NewCacheN n).
Proof.
  intros s Hs. simpl in Hs. apply elem_of_replicate in Hs as [-> _]. done.
Qed.

Lemma Get_absent k c :
  cache_wf c → absent k c → Get k c = Some (EmptyString, false, c).
Proof.
  intros Hwf Hk. destruct (getShard_wf c k Hwf) as (i & s & Hi & Hs).
  pose proof (Get_unfold k c i s Hi Hs) as H.
  rewrite (Hk s) in H; [done|]. by eapply list_elem_of_lookup_2.
Qed.

Lemma Get_not_queued k c :
  cache_inv c → ¬ queued k c → Get k c = Some (EmptyString, false, c).
Proof.
  intros Hc Hk. destruct (getShard_wf c k (proj1 Hc)) as (i & s & Hi & Hs).
  pose proof (Get_unfold k c i s Hi Hs) as H.
  destruct (items s !! k) as [val|] eqn:Hv; [|done].
  exfalso. apply Hk. exists i, s. split_and!; try done.
  apply (inv_items _ (cache_inv_shard _ _ _ Hc Hs)). eauto.
Qed.

Lemma absent_insert k c i s' :
  absent k c → items s' !! k = None → absent k (with_shard i s' c).
Proof.
  intros Hk Hs' s Hs. simpl in Hs.
  apply list_elem_of_lookup in Hs as [j Hj].
  destruct (decide (i = j)) as [<-|Hne].
  - destruct (decide (i < length (shards c))%nat).
    + rewrite list_lookup_insert_eq in Hj by done. by injection Hj as <-.
    + rewrite list_insert_ge in Hj by lia. apply Hk. by eapply list_elem_of_lookup_2.
  - rewrite list_lookup_insert_ne in Hj by done.
    apply Hk. by eapply list_elem_of_lookup_2.
Qed.

Lemma step_absent k o c :
  cache_inv c → absent k c → (∀ v, o ≠ OpPut k v) →
  ∃ c', step o c = Some c' ∧ cache_inv c' ∧ absent k c'.
Proof.
  intros Hc Hk Ho. destruct o as [k'|k' v|count]; simpl.
  - destruct (Get_inv k' c Hc) as (v & b & c' & HG & Hc').
    rewrite HG. simpl. exists c'. split_and!; try done.
    destruct (getShard_wf c k' (proj1 Hc)) as (i & s & Hi & Hs).
    pose proof (Get_unfold k' c i s Hi Hs) as H.
    destruct (items s !! k').
    + destruct H as (s' & H & Hit & _). rewrite H in HG. injection HG as _ _ <-.
      apply absent_insert; [done|]. rewrite Hit. apply Hk.
      by eapply list_elem_of_lookup_2.
    + rewrite H in HG. by injection HG as _ _ <-.
  - destruct (Put_inv k' v c Hc) as (c' & HP & Hc').
    exists c'. split_and!; try done.
    destruct (getShard_wf c k' (proj1 Hc)) as (i & s & Hi & Hs).
    destruct (Put_unfold k' v c i s Hi Hs) as (s' & m & H & Hit & _).
    rewrite H in HP. injection HP as <-.
    apply (absent_insert k (with_memUsage m c)); [done|].
    rewrite Hit, lookup_insert_ne by (intros ->; by eapply Ho).
    apply Hk. by eapply list_elem_of_lookup_2.
  - destruct (evictBatch_run_post count c Hc)
      as (ev & c' & Hrun & Hc' & _ & _ & _ & _ & _ & Hsub & _).
    unfold evictBatch. rewrite Hrun. simpl. exists c'. split_and!; try done.
    intros s' [j Hj]%list_elem_of_lookup.
    destruct (Hsub j s' Hj) as (s & Hs & Hshr & _).
    eapply lookup_weaken_None; [|exact Hshr].
    apply Hk. by eapply list_elem_of_lookup_2.
Qed.

Lemma run_absent k ops : ∀ c,
  cache_inv c → absent k c → (∀ v, OpPut k v ∉ ops) →
  ∃ c', run ops c = Some c' ∧ cache_inv c' ∧ absent k c'.
Proof.
  induction ops as [|o ops IH]; intros c Hc Hk Hops; simpl.
  - by exists c.
  - destruct (step_absent k o c Hc Hk) as (c1 & -> & Hc1 & Hk1).
    { intros v ->. apply (Hops v). set_solver. }
    simpl. apply IH; try done. intros v Hv. apply (Hops v). set_solver.
Qed.

(** ** The invariant in the words of the data model *)

Lemma shard_inv_bijection s : shard_inv s → key_node_bijection s ∧ hand_live s.
Proof.
  intros []. split; [split|split].
  - intros k Hk. apply inv_items0 in Hk.
    apply list_elem_of_lookup in Hk as [j Hj].
    unfold keys in *. rewrite list_lookup_fmap in Hj.
    destruct (itemsList s !! j) as [x|] eqn:Hx; [|done].
    injection Hj as Hj. exists j, x. split_and!; try done.
    intros j' x' Hx' Hk'.
    apply (NoDup_lookup _ j' j k inv_keys0); rewrite list_lookup_fmap.
    + by rewrite Hx', <- Hk'.
    + by rewrite Hx, <- Hj.
  - intros x Hx. apply inv_items0. unfold keys.
    apply list_elem_of_fmap. by exists x.
  - intros Hne. destruct (clockHand s) as [h|]; [by exists h|done].
  - intros He. destruct (clockHand s) as [h|]; [|done].
    rewrite He in inv_hand0. by apply elem_of_nil in inv_hand0.
Qed.

Lemma Get_stored k v c : stored k v c → ∃ c', Get k c = Some (v, true, c').
Proof.
  intros (i & s & Hi & Hs & Hv).
  pose proof (Get_unfold k c i s Hi Hs) as HG. rewrite Hv in HG.
  destruct HG as (s' & HG & _). eauto.
Qed.

Lemma stored_with_shard k v c j s0 s' :
  stored k v c → shards c !! j = Some s0 → items s' !! k = items s0 !! k →
  stored k v (with_shard j s' c).
Proof.
  intros (i & s & Hi & Hs & Hv) Hj Hit. destruct (decide (i = j)) as [->|Hne].
  - exists j, s'. split_and!; [done| |].
    + simpl. apply list_lookup_insert_eq. by eapply lookup_lt_Some.
    + rewrite Hit. rewrite Hs in Hj. by injection Hj as <-.
  - exists i, s. split_and!; [done| |done].
    simpl. by rewrite list_lookup_insert_ne.
Qed.

Lemma step_stored k v o c :
  cache_inv c → stored k v c → keeps k o →
  ∃ c', step o c = Some c' ∧ cache_inv c' ∧ stored k v c'.
Proof.
  intros Hc Hst Hk. destruct o as [k'|k' v'|count]; simpl in *; [| |done].
  - destruct (Get_inv k' c Hc) as (w & b & c' & HG & Hc').
    rewrite HG. simpl. exists c'. split_and!; try done.
    destruct (getShard_wf c k' (proj1 Hc)) as (i & s & Hi & Hs).
    pose proof (Get_unfold k' c i s Hi Hs) as H.
    destruct (items s !! k').
    + destruct H as (s' & H & Hit & _). rewrite H in HG. injection HG as _ _ <-.
      apply (stored_with_shard k v c i s); try done. by rewrite Hit.
    + rewrite H in HG. by injection HG as _ _ <-.
  - destruct (Put_inv k' v' c Hc) as (c' & HP & Hc').
    exists c'. split_and!; try done.
    destruct (getShard_wf c k' (proj1 Hc)) as (i & s & Hi & Hs).
    destruct (Put_unfold k' v' c i s Hi Hs) as (s' & m & H & Hit & _).
    rewrite H in HP. injection HP as <-.
    apply (stored_with_shard k v (with_memUsage m c) i s); try done.
    by rewrite Hit, lookup_insert_ne.
Qed.

Lemma run_stored k v ops : ∀ c,
  cache_inv c → stored k v c → Forall (keeps k) ops →
  ∃ c', run ops c = Some c' ∧ cache_inv c' ∧ stored k v c'.
Proof.
  induction ops as [|o ops IH]; intros c Hc Hst Hops; simpl.
  - by exists c.
  - apply Forall_cons in Hops as [Ho Hops].
    destruct (step_stored k v o c Hc Hst Ho) as (c1 & -> & Hc1 & Hst1).
    simpl. by apply IH.
Qed.

Lemma Put_stored k v c : cache_wf c → ∃ c', Put k v c = Some c' ∧ stored k v c'.
Proof.
  intros Hwf. destruct (getShard_wf c k Hwf) as (i & s & Hi & Hs).
  destruct (Put_unfold k v c i s Hi Hs) as (s' & m & HP & Hit & _).
  eexists. split; [exact HP|]. exists i, s'. split_and!; [done| |].
  - simpl. apply list_lookup_insert_eq. by eapply lookup_lt_Some.
  - by rewrite Hit, lookup_insert_eq.
Qed.

(** C8: from a state in which every shard satisfies the shard invariant,
    Get, Put, evictBatch and the shard-level evict all run to completion
    and leave every shard satisfying it again; the invariant says that
    map keys and queue nodes are in bijection and that the clock hand is
    on a queue node when the shard is non-empty and nil when it is
    empty. *)
Theorem shard_invariant_preserved (c : ShardedCache) :
  cache_inv c →
  Forall (λ s, key_node_bijection s ∧ hand_live s) (shards c)
  ∧ (∀ k, ∃ v b c', Get k c = Some (v, b, c') ∧ cache_inv c')
  ∧ (∀ k v, ∃ c', Put k v c = Some c' ∧ cache_inv c')
  ∧ (∀ count, ∃ c', evictBatch count c = Some c' ∧ cache_inv c')
  ∧ (∀ count s, s ∈ shards c →
        ∃ n s', evict count s = Some (n, s') ∧ shard_inv s').
Proof.
  intros Hc. split_and!.
  - eapply Forall_impl; [apply Hc|]. apply shard_inv_bijection.
  - intros k. by apply Get_inv.
  - intros k v. by apply Put_inv.
  - intros count.
    destruct (evictBatch_run_post count c Hc) as (ev & c' & Hrun & Hc' & _).
    unfold evictBatch. rewrite Hrun. by exists c'.
  - intros count s [i Hs]%list_elem_of_lookup.
    destruct (evict_post count s (cache_inv_shard _ _ _ Hc Hs))
      as (n & s' & He & Hs' & _).
    by exists n, s'.
Qed.

Lemma shard_invariant_preserved_witness :
  cache_inv NewCache
  ∧ Forall (λ s, key_node_bijection s ∧ hand_live s) (shards NewCache)
  ∧ (∀ k, ∃ v b c', Get k NewCache = Some (v, b, c') ∧ cache_inv c')
  ∧ (∀ k v, ∃ c', Put k v NewCache = Some c' ∧ cache_inv c')
  ∧ (∀ count, ∃ c', evictBatch count NewCache = Some c' ∧ cache_inv c')
  ∧ (∀ count s, s ∈ shards NewCache →
        ∃ n s', evict count s = Some (n, s') ∧ shard_inv s').
Proof.
  assert (cache_inv NewCache) as H
    by (unfold NewCache, DefaultShards; apply NewCacheN_inv; lia).
  split; [exact H|]. exact (shard_invariant_preserved NewCache H).
Defined.

(** C2: right after Put(k, v), Get(k) returns (v, true), and it still
    does after any operations that neither evict nor Put k again; a key
    that no shard stores and that no later operation inserts is not
    found, Get returning the empty string and false; and a key whose
    queue node an eviction batch removed is not found either. *)
Theorem put_then_get_and_missing (c : ShardedCache) :
  cache_inv c →
  (∀ k v, ∃ c1 c2, Put k v c = Some c1 ∧ Get k c1 = Some (v, true, c2))
  ∧ (∀ k v ops, Forall (keeps k) ops →
       ∃ c1 c2 c3, Put k v c = Some c1 ∧ run ops c1 = Some c2
                   ∧ Get k c2 = Some (v, true, c3))
  ∧ (∀ k ops, absent k c → (∀ v, OpPut k v ∉ ops) →
       ∃ c', run ops c = Some c' ∧ Get k c' = Some (EmptyString, false, c'))
  ∧ (∀ k count, ∃ c', evictBatch count c = Some c'
       ∧ (queued k c → ¬ queued k c' → Get k c' = Some (EmptyString, false, c'))).
Proof.
  intros Hc. split_and!.
  - intros k v. destruct (getShard_wf c k (proj1 Hc)) as (i & s & Hi & Hs).
    destruct (Put_unfold k v c i s Hi Hs) as (s' & m & HP & Hit & _).
    rewrite HP. eexists. 
    pose proof (Get_unfold k (mkShardedCache (<[i:=s']> (shards c)) (shardCount c)
                                (maxMemoryPct c) m) i s' Hi) as HG.
    simpl in HG. rewrite list_lookup_insert_eq in HG by (by eapply lookup_lt_Some).
    specialize (HG eq_refl). rewrite Hit, lookup_insert_eq in HG.
    destruct HG as (s'' & HG & _). eauto.
  - intros k v ops Hops.
    destruct (Put_stored k v c (proj1 Hc)) as (c1 & HP & Hst).
    destruct (Put_inv k v c Hc) as (c1' & HP' & Hc1).
    rewrite HP in HP'. injection HP' as <-.
    destruct (run_stored k v ops c1 Hc1 Hst Hops) as (c2 & Hrun & _ & Hst2).
    destruct (Get_stored k v c2 Hst2) as (c3 & HG).
    by exists c1, c2, c3.
  - intros k ops Hk Hops.
    destruct (run_absent k ops c Hc Hk Hops) as (c' & Hrun & Hc' & Hk').
    exists c'. split; [done|]. apply Get_absent; [apply Hc'|done].
  - intros k count.
    destruct (evictBatch_run_post count c Hc) as (ev & c' & Hrun & Hc' & _).
    unfold evictBatch. rewrite Hrun. exists c'. split; [done|].
    intros _ Hq. by apply Get_not_queued.
Qed.

Lemma put_then_get_and_missing_witness :
  cache_inv (NewCacheN 1)
  ∧ (∀ k v, ∃ c1 c2, Put k v (NewCacheN 1) = Some c1 ∧ Get k c1 = Some (v, true, c2))
  ∧ (∀ k v ops, Forall (keeps k) ops →
       ∃ c1 c2 c3, Put k v (NewCacheN 1) = Some c1 ∧ run ops c1 = Some c2
                   ∧ Get k c2 = Some (v, true, c3))
  ∧ (∀ k ops, absent k (NewCacheN 1) → (∀ v, OpPut k v ∉ ops) →
       ∃ c', run ops (NewCacheN 1) = Some c'
             ∧ Get k c' = Some (EmptyString, false, c'))
  ∧ (∀ k count, ∃ c', evictBatch count (NewCacheN 1) = Some c'
       ∧ (queued k (NewCacheN 1) → ¬ queued k c' →
          Get k c' = Some (EmptyString, false, c'))).
Proof.
  assert (cache_inv (NewCacheN 1)) as H by (apply NewCacheN_inv; simpl; lia).
  split; [exact H|]. exact (put_then_get_and_missing (NewCacheN 1) H).
Defined.

(** C3: Put(k, v1) followed by Put(k, v2) moves the counter, across the
    second call, by len(v2) - len(v1): the counter after is the int64 sum
    of the counter before and that difference, whatever the length of the
    key, and the plain difference when the sum is an int64. *)
Theorem second_put_delta (c : ShardedCache) (k v1 v2 : string) :
  cache_wf c →
  ∃ c1 c2, Put k v1 c = Some c1 ∧ Put k v2 c1 = Some c2
    ∧ memUsage c2 = AddInt64 (memUsage c1) (len v2 - len v1)
    ∧ (in_int64 (memUsage c1 + (len v2 - len v1)) →
       memUsage c2 - memUsage c1 = len v2 - len v1).
Proof.
  intros Hwf. destruct (getShard_wf c k Hwf) as (i & s & Hi & Hs).
  destruct (Put_unfold k v1 c i s Hi Hs) as (s1 & m1 & HP1 & Hit1 & Hm1).
  set (c1 := mkShardedCache (<[i:=s1]> (shards c)) (shardCount c) (maxMemoryPct c) m1)
    in HP1.
  assert (shards c1 !! i = Some s1) as Hs1.
  { simpl. apply list_lookup_insert_eq. by eapply lookup_lt_Some. }
  destruct (Put_unfold k v2 c1 i s1 Hi Hs1) as (s2 & m2 & HP2 & Hit2 & Hm2).
  eexists c1, _. split; [done|]. split; [exact HP2|]. simpl.
  rewrite Hit1, lookup_insert_eq in Hm2.
  assert (in_int64 m1) as Hr1.
  { rewrite Hm1. destruct (items s !! k).
    - destruct (decide _); [apply Hwf|apply wrap64_range].
    - apply wrap64_range. }
  assert (m2 = AddInt64 m1 (len v2 - len v1)) as ->.
  { rewrite Hm2. destruct (decide _) as [->|]; [|done].
    unfold AddInt64. by rewrite Z.add_0_r, wrap64_id. }
  split; [done|]. intros Hr. unfold AddInt64. rewrite wrap64_id by done. lia.
Qed.

Lemma second_put_delta_witness :
  cache_wf (NewCacheN 1)
  ∧ ∃ c1 c2, Put "k" "v" (NewCacheN 1) = Some c1 ∧ Put "k" "vwxyz" c1 = Some c2
    ∧ memUsage c2 = AddInt64 (memUsage c1) (len "vwxyz" - len "v")
    ∧ (in_int64 (memUsage c1 + (len "vwxyz" - len "v")) →
       memUsage c2 - memUsage c1 = len "vwxyz" - len "v").
Proof.
  assert (cache_wf (NewCacheN 1)) as H by (apply NewCacheN_wf; simpl; lia).
  split; [exact H|]. exact (second_put_delta (NewCacheN 1) "k" "v" "vwxyz" H).
Defined.

(** C4, as the code has it: from a fresh cache, Put("a","1") then
    Put("a","22") leave Get("a") returning ("22", true); the counter goes
    from 0 to 2 with the first call (one byte of key and one of value) and
    to 3 with the second. *)
Theorem scenario_update_a :
  let c1 := Put "a" "1" NewCache in
  let c2 := c1 ≫= Put "a" "22" in
  let r := c2 ≫= Get "a" in
  fst <$> r = Some ("22", true)
  ∧ memUsage NewCache = 0
  ∧ memUsage <$> c1 = Some 2
  ∧ memUsage <$> c2 = Some 3.
Proof. vm_compute. by split_and!. Qed.

(** C4 as stated fails: the first call does not add 1 to the counter and
    the two calls together do not add 1. *)
Lemma scenario_update_a_not_plus_one :
  memUsage <$> Put "a" "1" NewCache ≠ Some (memUsage NewCache + 1)
  ∧ memUsage <$> (Put "a" "1" NewCache ≫= Put "a" "22") ≠ Some (memUsage NewCache + 1)
  ∧ memUsage <$> (Put "a" "1" NewCache ≫= Put "a" "22") ≠ Some (memUsage NewCache + 2).
Proof. vm_compute. split_and!; intros [=]. Qed.

(** ** Put on a stored key *)

Lemma pks_lookup l j x : l !! j = Some x → pks l !! j = Some (ptr x, key (Value x)).
Proof. intros H. unfold pks. by rewrite list_lookup_fmap, H. Qed.

(** In a queue without repeated addresses or keys, an element is at the
    address of a key's node exactly when it carries that key. *)
Lemma pks_ptr_key l e k x :
  NoDup (ptrs l) → NoDup (keys l) → (e, k) ∈ pks l → x ∈ l →
  ptr x = e ↔ key (Value x) = k.
Proof.
  intros Hp Hk [j Hj]%list_elem_of_lookup [j' Hx]%list_elem_of_lookup.
  pose proof (pks_lookup _ _ _ Hx) as Hx'.
  split; intros Heq.
  - assert (j' = j) as ->.
    { apply (NoDup_lookup _ j' j e Hp); rewrite ptrs_pks, list_lookup_fmap.
      + by rewrite Hx', <- Heq.
      + by rewrite Hj. }
    rewrite Hx' in Hj. by injection Hj.
  - assert (j' = j) as ->.
    { apply (NoDup_lookup _ j' j k Hk); rewrite keys_pks, list_lookup_fmap.
      + by rewrite Hx', <- Heq.
      + by rewrite Hj. }
    rewrite Hx' in Hj. by injection Hj.
Qed.

Lemma updValue_by_key f s k e :
  shard_inv s → elements s !! k = Some e →
  updValue f e (itemsList s)
  = (λ x, if decide (key (Value x) = k) then mkElement (ptr x) (f (Value x)) else x)
      <$> itemsList s.
Proof.
  intros [] He. apply inv_elements0 in He.
  unfold updValue. apply list_fmap_ext. intros j x Hx.
  pose proof (pks_ptr_key _ e k x inv_ptrs0 inv_keys0 He
                (list_elem_of_lookup_2 _ _ _ Hx)) as Hiff.
  destruct (decide (ptr x = e)), (decide (key (Value x) = k)); tauto.
Qed.

Lemma stored_has_element s k v :
  shard_inv s → items s !! k = Some v → ∃ e, elements s !! k = Some e.
Proof.
  intros [] Hk. assert (k ∈ keys (itemsList s)) as Hin by (apply inv_items0; eauto).
  rewrite keys_pks in Hin. apply list_elem_of_fmap in Hin as ([e k'] & -> & Hin).
  exists e. by apply inv_elements0.
Qed.

(** C9: Put on a stored key replaces the value, sets the entry's size to
    len(key) + len(value) and its referenced bit to true, and changes
    nothing else: the queue keeps its nodes in the same order, every other
    node is untouched, the clock hand, the element index, the set of
    stored keys and the other values are the same, and so is every other
    shard. *)
Theorem put_existing_frame (c : ShardedCache) (k v old : string) (i : nat)
    (s : CacheShard) :
  cache_inv c → getShard c k = Some i → shards c !! i = Some s →
  items s !! k = Some old →
  ∃ s',
    Put k v c
    = Some (mkShardedCache (<[i := s']> (shards c)) (shardCount c) (maxMemoryPct c)
              (if decide (len v - len old = 0) then memUsage c
               else AddInt64 (memUsage c) (len v - len old)))
    ∧ items s' = <[k := v]> (items s)
    ∧ dom (items s') = dom (items s)
    ∧ elements s' = elements s
    ∧ clockHand s' = clockHand s
    ∧ nextPtr s' = nextPtr s
    ∧ pks (itemsList s') = pks (itemsList s)
    ∧ itemsList s'
      = (λ x, if decide (key (Value x) = k)
              then mkElement (ptr x) (mkClockItem k true (len k + len v))
              else x) <$> itemsList s
    ∧ k ∈ keys (itemsList s).
Proof.
  intros Hc Hi Hs Hk.
  pose proof (cache_inv_shard _ _ _ Hc Hs) as Hsi.
  destruct (stored_has_element s k old Hsi Hk) as [e He].
  unfold Put. rewrite Hi. simpl. rewrite Hs. simpl. rewrite Hk, He.
  eexists. split; [reflexivity|]. simpl. split_and!; try done.
  - apply set_eq. intros k'. rewrite !elem_of_dom.
    destruct (decide (k = k')) as [<-|Hne].
    + rewrite lookup_insert_eq, Hk. split; eauto.
    + by rewrite lookup_insert_ne.
  - by apply pks_updValue.
  - rewrite (updValue_by_key _ s k e Hsi He).
    apply list_fmap_ext. intros j x _. simpl.
    destruct (decide _) as [Hkx|]; [|done].
    unfold set_referenced_size. by rewrite Hkx.
  - apply (inv_items _ Hsi). eauto.
Qed.

(** ** The counter is never read *)

Lemma same_but_counter_with_shard i s c c' :
  same_but_counter c c' → same_but_counter (with_shard i s c) (with_shard i s c').
Proof. intros (H1 & H2 & H3). unfold same_but_counter. simpl. by rewrite H1. Qed.

Lemma getShard_counter c c' k : same_but_counter c c' → getShard c k = getShard c' k.
Proof. intros (H1 & H2 & H3). unfold getShard. by rewrite H2. Qed.

Lemma Get_counter k c c' :
  same_but_counter c c' →
  option_Forall2 (λ r r', r.1 = r'.1 ∧ same_but_counter r.2 r'.2) (Get k c) (Get k c').
Proof.
  intros Hcc. unfold Get. rewrite <- (getShard_counter c c' k Hcc).
  destruct (getShard c k) as [i|]; simpl; [|constructor].
  destruct Hcc as (H1 & H2 & H3). rewrite <- H1.
  destruct (shards c !! i) as [s|]; simpl; [|constructor].
  destruct (items s !! k); constructor; simpl; (split; [done|]).
  - by apply same_but_counter_with_shard.
  - done.
Qed.

Lemma Put_counter k v c c' :
  same_but_counter c c' → option_Forall2 same_but_counter (Put k v c) (Put k v c').
Proof.
  intros Hcc. unfold Put. rewrite <- (getShard_counter c c' k Hcc).
  destruct (getShard c k) as [i|]; simpl; [|constructor].
  destruct Hcc as (H1 & H2 & H3). rewrite <- H1.
  destruct (shards c !! i) as [s|]; simpl; [|constructor].
  destruct (items s !! k); constructor; unfold same_but_counter; simpl;
    by rewrite H1.
Qed.

Lemma evictBatch_loop_counter count q fuel : ∀ i ev c c',
  same_but_counter c c' →
  option_Forall2 (λ r r', r.1 = r'.1 ∧ same_but_counter r.2 r'.2)
    (evictBatch_loop fuel count q i ev c) (evictBatch_loop fuel count q i ev c').
Proof.
  induction fuel as [|fuel IH]; intros i ev c c' Hcc; simpl;
    pose proof Hcc as (H1 & H2 & H3); rewrite <- H2.
  - destruct (decide _); constructor. done.
  - destruct (decide _); [|by constructor].
    rewrite <- H1. destruct (shards c !! Z.to_nat i) as [s|]; simpl; [|constructor].
    destruct (evict q s) as [[n s']|]; simpl; [|constructor].
    apply IH. by apply same_but_counter_with_shard.
Qed.

Lemma evictBatch_counter count c c' :
  same_but_counter c c' →
  option_Forall2 same_but_counter (evictBatch count c) (evictBatch count c').
Proof.
  intros Hcc. unfold evictBatch, evictBatch_run.
  pose proof Hcc as (H1 & H2 & H3). rewrite <- H2.
  destruct (decide _); [constructor|].
  destruct (evictBatch_loop_counter count
              (if decide (count `quot` shardCount c < 1) then 1
               else count `quot` shardCount c)
              (Z.to_nat (shardCount c)) 0 0 c c' Hcc) as [r r' [_ Hr]|];
    constructor. done.
Qed.

Lemma monitor_tick_counter m c c' :
  same_but_counter c c' →
  option_Forall2 same_but_counter (monitor_tick m c) (monitor_tick m c').
Proof.
  intros Hcc. unfold monitor_tick. pose proof Hcc as (H1 & H2 & H3). rewrite <- H3.
  destruct (SFltb _ _); [|by constructor].
  by apply evictBatch_counter.
Qed.

Lemma monitorMemory_counter evs : ∀ c c',
  same_but_counter c c' →
  option_Forall2 same_but_counter (monitorMemory evs c) (monitorMemory evs c').
Proof.
  induction evs as [|[m|] evs IH]; intros c c' Hcc; simpl; try by constructor.
  destruct (monitor_tick_counter m c c' Hcc) as [c1 c1' Hc1|]; simpl;
    [by apply IH|constructor].
Qed.

(** C10: two caches that differ only in the memory-usage counter give,
    for Get, Put, evictBatch, one monitor wake-up on any memory sample and
    any monitor run, the same results and states that again differ only in
    the counter (the shard-level evict does not receive the cache, so
    cannot read its counter): the counter is written and never read. *)
Theorem counter_write_only (c c' : ShardedCache) :
  same_but_counter c c' →
  (∀ k, option_Forall2 (λ r r', r.1 = r'.1 ∧ same_but_counter r.2 r'.2)
          (Get k c) (Get k c'))
  ∧ (∀ k v, option_Forall2 same_but_counter (Put k v c) (Put k v c'))
  ∧ (∀ count, option_Forall2 (λ r r', r.1 = r'.1 ∧ same_but_counter r.2 r'.2)
                (evictBatch_run count c) (evictBatch_run count c'))
  ∧ (∀ m, option_Forall2 same_but_counter (monitor_tick m c) (monitor_tick m c'))
  ∧ (∀ evs, option_Forall2 same_but_counter (monitorMemory evs c)
              (monitorMemory evs c')).
Proof.
  intros Hcc. split_and!.
  - intros k. by apply Get_counter.
  - intros k v. by apply Put_counter.
  - intros count. unfold evictBatch_run.
    pose proof Hcc as (H1 & H2 & H3). rewrite <- H2.
    destruct (decide _); [constructor|]. by apply evictBatch_loop_counter.
  - intros m. by apply monitor_tick_counter.
  - intros evs. by apply monitorMemory_counter.
Qed.

Lemma counter_write_only_witness :
  same_but_counter (NewCacheN 2) (with_memUsage 4096 (NewCacheN 2))
  ∧ (∀ k, option_Forall2 (λ r r', r.1 = r'.1 ∧ same_but_counter r.2 r'.2)
          (Get k (NewCacheN 2)) (Get k (with_memUsage 4096 (NewCacheN 2))))
  ∧ (∀ k v, option_Forall2 same_but_counter (Put k v (NewCacheN 2))
              (Put k v (with_memUsage 4096 (NewCacheN 2))))
  ∧ (∀ count, option_Forall2 (λ r r', r.1 = r'.1 ∧ same_but_counter r.2 r'.2)
                (evictBatch_run count (NewCacheN 2))
                (evictBatch_run count (with_memUsage 4096 (NewCacheN 2))))
  ∧ (∀ m, option_Forall2 same_but_counter (monitor_tick m (NewCacheN 2))
            (monitor_tick m (with_memUsage 4096 (NewCacheN 2))))
  ∧ (∀ evs, option_Forall2 same_but_counter (monitorMemory evs (NewCacheN 2))
              (monitorMemory evs (with_memUsage 4096 (NewCacheN 2)))).
Proof.
  assert (same_but_counter (NewCacheN 2) (with_memUsage 4096 (NewCacheN 2))) as H
    by (unfold same_but_counter; simpl; tauto).
  split; [exact H|]. exact (counter_write_only _ _ H).
Defined.

(** ** EvictBatch as the coordinator's description words it *)

Lemma evictBatch_loop_refines count q : ∀ todo visited ev c fuel,
  shards c = visited ++ todo →
  shardCount c = Z.of_nat (length (shards c)) →
  (length todo <= fuel)%nat →
  evictBatch_loop fuel count q (Z.of_nat (length visited)) ev c
  = '(r, todo') ← EvictBatch_shards count q ev todo;
    Some (r, mkShardedCache (visited ++ todo') (shardCount c) (maxMemoryPct c)
               (memUsage c)).
Proof.
  induction todo as [|s rest IH]; intros visited ev c fuel Hsh Hsc Hfuel.
  - simpl. rewrite app_nil_r in *.
    assert (¬ (Z.of_nat (length visited) < shardCount c ∧ ev < count)) as Hg
      by (rewrite Hsc, Hsh; lia).
    destruct fuel; simpl; rewrite decide_False by done;
      destruct c; simpl in *; by subst.
  - destruct fuel as [|fuel]; [simpl in Hfuel; lia|].
    simpl. destruct (decide (ev < count)) as [Hev|Hev].
    + rewrite decide_True.
      2:{ split; [|done]. rewrite Hsc, Hsh, length_app. simpl. lia. }
      rewrite decide_False by lia.
      rewrite Nat2Z.id, Hsh.
      rewrite (lookup_app_r visited) by lia. rewrite Nat.sub_diag. simpl.
      destruct (evict q s) as [[n s']|]; simpl; [|done].
      replace (Z.of_nat (length visited) + 1) with (Z.of_nat (length (visited ++ [s'])))
        by (rewrite length_app; simpl; lia).
      rewrite (IH (visited ++ [s'])).
      * simpl. destruct (EvictBatch_shards count q (ev + n) rest) as [[r rest']|];
          simpl; [|done].
        by rewrite <- app_assoc.
      * simpl. rewrite Hsh.
        replace (length visited) with (length visited + 0)%nat at 1 by lia.
        rewrite insert_app_r. simpl. by rewrite <- app_assoc.
      * simpl. rewrite length_insert. done.
      * simpl in Hfuel. lia.
    + rewrite decide_False by (intros [_ ?]; done).
      rewrite decide_True by lia. simpl.
      destruct c; simpl in *; by subst.
Qed.

Lemma evictBatch_run_refines count c :
  cache_wf c → 1 <= count → evictBatch_run count c = EvictBatch_spec count c.
Proof.
  intros (Hlen & Hsc & _) Hcount. unfold evictBatch_run, EvictBatch_spec.
  rewrite decide_False by lia.
  assert ((if decide (count `quot` shardCount c < 1) then 1
           else count `quot` shardCount c) = Z.max 1 (count / shardCount c)) as ->.
  { rewrite Z.quot_div_nonneg by lia. destruct (decide _); lia. }
  rewrite (evictBatch_loop_refines count _ (shards c) [] 0 c); try done.
  rewrite Hlen. lia.
Qed.

Lemma evict_empty count s : itemsList s = [] → evict count s = Some (0, s).
Proof.
  intros Hl. unfold evict, evict_run. rewrite decide_True; [done|].
  right. by rewrite Hl.
Qed.

Lemma EvictBatch_shards_empty count q : ∀ ss ev,
  Forall (λ s, itemsList s = []) ss → EvictBatch_shards count q ev ss = Some (ev, ss).
Proof.
  induction ss as [|s ss IH]; intros ev Hall; simpl; [done|].
  apply Forall_cons in Hall as [Hs Hall].
  destruct (decide _); [done|].
  rewrite (evict_empty q s Hs). simpl. rewrite Z.add_0_r, (IH ev Hall). done.
Qed.

Lemma sumZ_zero {A} (f : A → Z) l :
  (∀ x, 0 <= f x) → sumZ f l = 0 → Forall (λ x, f x = 0) l.
Proof.
  intros Hf. induction l as [|x l IH]; simpl; [by constructor|].
  intros H. assert (0 <= sumZ f l).
  { clear IH H. induction l as [|y l IH]; simpl; [lia|]. specialize (Hf y). lia. }
  specialize (Hf x). constructor; [lia|]. apply IH. lia.
Qed.

(** C6: for totalCount >= 1, one evictBatch call is the walk over the
    shards in index order with perShard = max(1, totalCount / shardCount)
    that stops when all shards are visited or the running total reaches
    totalCount; it removes as many entries as it counts, at most
    totalCount, and on an empty cache it removes none and leaves the cache
    as it is. *)
Theorem evictBatch_bounded (c : ShardedCache) (totalCount : Z) :
  cache_inv c → 1 <= totalCount →
  evictBatch_run totalCount c = EvictBatch_spec totalCount c
  ∧ (∃ ev c', evictBatch_run totalCount c = Some (ev, c')
       ∧ total_entries c - total_entries c' = ev
       ∧ 0 <= ev <= totalCount)
  ∧ (total_entries c = 0 → evictBatch_run totalCount c = Some (0, c)).
Proof.
  intros Hc Hcount. split_and!.
  - by apply evictBatch_run_refines; [apply Hc|].
  - destruct (evictBatch_run_post totalCount c Hc)
      as (ev & c' & Hrun & _ & Hev & Htot & _ & _ & _ & _ & Hle).
    exists ev, c'. split_and!; try done; lia.
  - intros Hempty. rewrite evictBatch_run_refines by (done || apply Hc).
    unfold EvictBatch_spec. rewrite EvictBatch_shards_empty.
    + simpl. by destruct c.
    + apply (sumZ_zero (λ s, Len (itemsList s))) in Hempty.
      * eapply Forall_impl; [exact Hempty|]. intros s Hs. simpl in Hs.
        unfold Len in Hs. destruct (itemsList s); [done|]. simpl in Hs. lia.
      * intros s. apply Len_nonneg.
Qed.

Lemma evictBatch_bounded_witness :
  (cache_inv (NewCacheN 3) ∧ 1 <= 5)
  ∧ evictBatch_run 5 (NewCacheN 3) = EvictBatch_spec 5 (NewCacheN 3)
  ∧ (∃ ev c', evictBatch_run 5 (NewCacheN 3) = Some (ev, c')
       ∧ total_entries (NewCacheN 3) - total_entries c' = ev
       ∧ 0 <= ev <= 5)
  ∧ (total_entries (NewCacheN 3) = 0 →
     evictBatch_run 5 (NewCacheN 3) = Some (0, NewCacheN 3)).
Proof.
  assert (cache_inv (NewCacheN 3)) as H by (apply NewCacheN_inv; simpl; lia).
  assert (1 <= 5) as H5 by lia.
  split; [by split|]. exact (evictBatch_bounded (NewCacheN 3) 5 H H5).
Defined.

(** ** Termination of the sweep *)

(** C7, as the code has it: on a shard that satisfies the invariant the
    sweep returns, raises nothing, and has made at most twice the initial
    queue length of inspection steps; it stops because the evicted count
    reached the request or because the shard became empty (the hand is
    then nil), unless the request was not positive; the step bound never
    cuts it short, since it leaves room for one pass that clears the
    referenced bits and a second that evicts: the sweep evicts
    min(requestedCount, initial queue length) entries, fewer than asked
    only when the shard held fewer. *)
Theorem sweep_terminates (s : CacheShard) (requestedCount : Z) :
  shard_inv s →
  ∃ st, evict_run requestedCount s = Some st
    ∧ evict requestedCount s = Some (evicted st, sw_shard st)
    ∧ 0 <= attempts st <= Len (itemsList s) * 2
    ∧ (evicted st = requestedCount
       ∨ (itemsList (sw_shard st) = [] ∧ clockHand (sw_shard st) = None)
       ∨ requestedCount <= 0)
    ∧ evicted st = Z.max 0 (Z.min requestedCount (Len (itemsList s)))
    ∧ evicted st + Len (itemsList (sw_shard st)) = Len (itemsList s)
    ∧ shard_inv (sw_shard st).
Proof.
  intros Hs. destruct (evict_run_post requestedCount s Hs) as (st & Hrun & []).
  exists st. unfold evict. rewrite Hrun. split_and!; simpl; try done; lia.
Qed.

Lemma sweep_terminates_witness :
  ∃ s, shard_after_put_a = Some s ∧ shard_inv s
  ∧ ∃ st, evict_run 1 s = Some st
    ∧ evict 1 s = Some (evicted st, sw_shard st)
    ∧ 0 <= attempts st <= Len (itemsList s) * 2
    ∧ (evicted st = 1
       ∨ (itemsList (sw_shard st) = [] ∧ clockHand (sw_shard st) = None)
       ∨ 1 <= 0)
    ∧ evicted st = Z.max 0 (Z.min 1 (Len (itemsList s)))
    ∧ evicted st + Len (itemsList (sw_shard st)) = Len (itemsList s)
    ∧ shard_inv (sw_shard st).
Proof.
  assert (cache_inv (NewCacheN 1)) as H by (apply NewCacheN_inv; simpl; lia).
  destruct (Put_inv "a" "1" (NewCacheN 1) H) as (c & Hc & Hinv).
  destruct (lookup_lt_is_Some_2 (shards c) 0) as [s Hs].
  { destruct Hinv as [(Hlen & Hsc & _) _]. lia. }
  exists s. split; [unfold shard_after_put_a; by rewrite Hc|].
  pose proof (cache_inv_shard _ _ _ Hinv Hs) as Hsi.
  split; [exact Hsi|]. exact (sweep_terminates s 1 Hsi).
Defined.

(** C7 as stated fails.  In the shard holding the single entry of
    Put("a","1"), every entry is referenced and a sweep asked for one
    eviction uses all of its twice-the-queue-length steps, yet it returns
    the one eviction asked for, not fewer.  In the shard holding the two
    entries of Put("a","1") and Put("b","2"), both referenced, a sweep
    asked for one eviction returns one as well, after three steps. *)
Lemma sweep_bound_hit_not_fewer :
  (∃ s st, shard_after_put_a = Some s
     ∧ refs (itemsList s) = Len (itemsList s)
     ∧ evict_run 1 s = Some st
     ∧ attempts st = Len (itemsList s) * 2
     ∧ ¬ (evicted st < 1))
  ∧ (∃ s st, shard_after_put_ab = Some s
       ∧ refs (itemsList s) = Len (itemsList s)
       ∧ evict_run 1 s = Some st
       ∧ attempts st = 3
       ∧ ¬ (evicted st < 1)).
Proof.
  split.
  - eexists _, _. split; [vm_compute; reflexivity|].
    split; [reflexivity|]. split; [vm_compute; reflexivity|].
    split; [reflexivity|]. simpl. lia.
  - eexists _, _. split; [vm_compute; reflexivity|].
    split; [reflexivity|]. split; [vm_compute; reflexivity|].
    split; [reflexivity|]. simpl. lia.
Qed.

(** ** Eviction order on a freshly filled shard *)

Lemma ptrs_clear l : ptrs (clear l) = ptrs l.
Proof. unfold ptrs, clear. by rewrite <- list_fmap_compose. Qed.

Lemma keys_clear l : keys (clear l) = keys l.
Proof. unfold keys, clear. by rewrite <- list_fmap_compose. Qed.

Lemma length_clear l : length (clear l) = length l.
Proof. unfold clear. by rewrite length_fmap. Qed.

Lemma clear_unreferenced l : Forall (λ x, referenced (Value x) = false) (clear l).
Proof. unfold clear. apply Forall_fmap, Forall_true. done. Qed.

Lemma evict_loop_done fuel count maxA st :
  ¬ (evicted st < count ∧ attempts st < maxA) →
  evict_loop fuel count maxA st = Some st.
Proof. intros Hg. destruct fuel; simpl; by rewrite decide_False. Qed.

(** First pass: with the hand at the head of [l2], all of it referenced,
    the sweep clears [l2] node by node. *)
Lemma clear_phase count maxA : ∀ l2 l1 st fuel,
  itemsList (sw_shard st) = l1 ++ l2 →
  clockHand (sw_shard st) = Front (l2 ++ l1) →
  NoDup (ptrs (l1 ++ l2)) →
  Forall (λ x, referenced (Value x) = true) l2 →
  evicted st < count → attempts st + Len l2 <= maxA → (length l2 <= fuel)%nat →
  ∃ st', evict_loop fuel count maxA st
         = evict_loop (fuel - length l2) count maxA st'
    ∧ itemsList (sw_shard st') = l1 ++ clear l2
    ∧ clockHand (sw_shard st') = Front (l1 ++ clear l2)
    ∧ evicted st' = evicted st
    ∧ attempts st' = attempts st + Len l2.
Proof.
  induction l2 as [|x l2 IH]; intros l1 st fuel Hl Hh Hnd Href Hev Hatt Hfuel.
  - exists st. simpl. rewrite Nat.sub_0_r. rewrite app_nil_r in *.
    change (Len []) with 0. split_and!; try done. lia.
  - apply Forall_cons in Href as [Hx Href].
    destruct fuel as [|fuel]; [simpl in Hfuel; lia|].
    assert (Len (x :: l2) = 1 + Len l2) as HL by (unfold Len; simpl length; lia).
    pose proof (Len_nonneg l2).
    simpl evict_loop. rewrite decide_True by lia.
    rewrite <- Hl in Hnd.
    rewrite (evict_body_second_chance st l1 l2 x Hl Hh Hnd Hx). simpl.
    set (x' := mkElement (ptr x) (set_referenced false (Value x))).
    match goal with |- ∃ _, evict_loop _ _ _ ?s1 = _ ∧ _ => set (st1 := s1) end.
    destruct (IH (l1 ++ [x']) st1 fuel) as (st' & Hrun & Hl' & Hh' & Hev' & Hatt').
    { unfold st1. simpl. rewrite <- app_assoc. reflexivity. }
    { reflexivity. }
    { rewrite Hl in Hnd. rewrite !ptrs_app in *. rewrite <- app_assoc. exact Hnd. }
    { done. }
    { done. }
    { unfold st1. simpl. lia. }
    { simpl in Hfuel. lia. }
    exists st'. rewrite Hrun. unfold st1 in *. rewrite <- !app_assoc in *. simpl in *.
    split_and!; try done. lia.
Qed.

(** Second pass: with the hand at the front of a queue whose bits are
    clear, the sweep evicts from the front. *)
Lemma evict_phase count maxA : ∀ (j : nat) l st fuel,
  itemsList (sw_shard st) = l →
  clockHand (sw_shard st) = Front l →
  NoDup (ptrs l) →
  Forall (λ x, referenced (Value x) = false) l →
  (j < length l)%nat →
  evicted st + Z.of_nat j <= count → attempts st + Z.of_nat j <= maxA →
  (j <= fuel)%nat →
  ∃ st', evict_loop fuel count maxA st = evict_loop (fuel - j) count maxA st'
    ∧ itemsList (sw_shard st') = drop j l
    ∧ evicted st' = evicted st + Z.of_nat j
    ∧ attempts st' = attempts st + Z.of_nat j.
Proof.
  induction j as [|j IH]; intros l st fuel Hl Hh Hnd Href Hj Hev Hatt Hfuel.
  - exists st. rewrite Nat.sub_0_r. simpl. split_and!; try done; lia.
  - destruct l as [|x l]; [simpl in Hj; lia|].
    destruct fuel as [|fuel]; [lia|].
    apply Forall_cons in Href as [Hx Href].
    simpl evict_loop. rewrite decide_True by lia.
    rewrite <- Hl in Hnd.
    rewrite (evict_body_remove st [] l x Hl Hh Hnd Hx). simpl.
    rewrite decide_False by (destruct l; [simpl in Hj; lia|done]).
    simpl.
    match goal with |- ∃ _, evict_loop _ _ _ ?s1 = _ ∧ _ => set (st1 := s1) end.
    destruct (IH l st1 fuel) as (st' & Hrun & Hl' & Hev' & Hatt').
    { done. }
    { simpl. by rewrite app_nil_r. }
    { rewrite Hl in Hnd. unfold ptrs in *. simpl in Hnd.
      by apply NoDup_cons in Hnd as [_ ?]. }
    { done. }
    { simpl in Hj. lia. }
    { unfold st1. simpl. lia. }
    { unfold st1. simpl. lia. }
    { lia. }
    exists st'. rewrite Hrun. unfold st1 in *. simpl in *. split_and!; try done; lia.
Qed.

(** A sweep for [n] evictions of a queue of more than [n] entries, all
    referenced, the hand at the front: the first [n] entries go. *)
Lemma evict_run_filled s (n : nat) :
  clockHand s = Front (itemsList s) →
  NoDup (ptrs (itemsList s)) →
  Forall (λ x, referenced (Value x) = true) (itemsList s) →
  (1 <= n < length (itemsList s))%nat →
  ∃ st, evict_run (Z.of_nat n) s = Some st
    ∧ itemsList (sw_shard st) = drop n (clear (itemsList s))
    ∧ evicted st = Z.of_nat n.
Proof.
  intros Hh Hnd Href Hn. unfold evict_run.
  rewrite decide_False.
  2:{ intros [H|H].
      - rewrite Hh in H. destruct (itemsList s); [simpl in Hn; lia|done].
      - unfold Len in H. lia. }
  set (maxA := Len (itemsList s) * 2).
  destruct (clear_phase (Z.of_nat n) maxA (itemsList s) [] (mkSweep s 0 0)
              (Z.to_nat maxA)) as (st1 & -> & Hl1 & Hh1 & Hev1 & Hatt1);
    simpl; try done; try (by rewrite app_nil_r); try (unfold maxA, Len; lia).
  simpl in *.
  destruct (evict_phase (Z.of_nat n) maxA n (clear (itemsList s)) st1
              (Z.to_nat maxA - length (itemsList s)))
    as (st2 & -> & Hl2 & Hev2 & Hatt2); try done.
  - by rewrite ptrs_clear.
  - apply clear_unreferenced.
  - rewrite length_clear. lia.
  - lia.
  - unfold maxA, Len in *. lia.
  - unfold maxA, Len. lia.
  - exists st2. split_and!; try done; [|lia].
    apply evict_loop_done. lia.
Qed.

Lemma fill_app kvs : ∀ p k v,
  fill p (kvs ++ [(k, v)])
  = fill p kvs ++ [mkElement (p + length kvs) (mkClockItem k true (len k + len v))].
Proof.
  induction kvs as [|[k' v'] kvs IH]; intros p k v; simpl.
  - by rewrite Nat.add_0_r.
  - rewrite IH. by rewrite Nat.add_succ_r.
Qed.

Lemma keys_fill kvs : ∀ p, keys (fill p kvs) = kvs.*1.
Proof.
  induction kvs as [|[k v] kvs IH]; intros p; simpl; [done|].
  unfold keys in *. simpl. by rewrite IH.
Qed.

Lemma length_fill kvs : ∀ p, length (fill p kvs) = length kvs.
Proof. induction kvs as [|[k v] kvs IH]; intros p; simpl; [done|]. by rewrite IH. Qed.

Lemma fill_referenced kvs : ∀ p,
  Forall (λ x, referenced (Value x) = true) (fill p kvs).
Proof.
  induction kvs as [|[k v] kvs IH]; intros p; simpl; constructor; [done|apply IH].
Qed.

Lemma emptyShard_filled : filled [] emptyShard.
Proof.
  constructor; try done; [apply emptyShard_inv|].
  intros k v Hin. by apply elem_of_nil in Hin.
Qed.

Lemma getShard_single c k : shardCount c = 1 → getShard c k = Some 0%nat.
Proof.
  intros Hsc. unfold getShard. rewrite Hsc.
  replace (1 mod 2 ^ 32) with 1 by reflexivity.
  destruct (decide (1 = 0)); [done|]. by rewrite Z.mod_1_r.
Qed.

Lemma Put_filled kvs s c k v :
  shards c = [s] → shardCount c = 1 → filled kvs s → k ∉ kvs.*1 →
  ∃ c' s', Put k v c = Some c' ∧ shards c' = [s'] ∧ shardCount c' = 1
           ∧ filled (kvs ++ [(k, v)]) s'.
Proof.
  intros Hsh Hsc [Hinv Hl Hh Hit Hn] Hk.
  assert (items s !! k = None) as Hnone.
  { destruct (items s !! k) eqn:E; [|done]. exfalso. apply Hk.
    rewrite <- (keys_fill kvs 0), <- Hl. apply (inv_items _ Hinv). eauto. }
  unfold Put. rewrite (getShard_single c k Hsc). simpl. rewrite Hsh. simpl.
  rewrite Hnone. eexists _, _. split; [reflexivity|]. simpl. rewrite Hsh. simpl.
  split_and!; try done.
  constructor; simpl.
  - by apply put_new_inv.
  - rewrite fill_app. unfold PushBack. by rewrite Hl, Hn.
  - rewrite fill_app, Hh. destruct kvs as [|[k0 v0] kvs]; simpl; [|done].
    by rewrite Hn.
  - intros k' v' [Hin|Hin]%elem_of_app.
    + rewrite lookup_insert_ne; [by apply Hit|].
      intros <-. apply Hk. apply list_elem_of_fmap. by exists (k, v').
    + apply list_elem_of_singleton in Hin. injection Hin as -> ->.
      apply lookup_insert_eq.
  - rewrite length_app, Hn. simpl. lia.
Qed.

Lemma put_all_filled : ∀ rest visited c s,
  shards c = [s] → shardCount c = 1 → filled visited s →
  NoDup (visited ++ rest).*1 →
  ∃ c' s', put_all rest c = Some c' ∧ shards c' = [s'] ∧ shardCount c' = 1
           ∧ filled (visited ++ rest) s'.
Proof.
  induction rest as [|[k v] rest IH]; intros visited c s Hsh Hsc Hf Hnd; simpl.
  - exists c, s. by rewrite app_nil_r.
  - assert (k ∉ visited.*1) as Hk.
    { rewrite fmap_app in Hnd. apply NoDup_app in Hnd as (_ & Hnd & _).
      intros Hin. apply (Hnd _ Hin). simpl. set_solver. }
    destruct (Put_filled visited s c k v Hsh Hsc Hf Hk) as (c1 & s1 & -> & Hsh1 & Hsc1 & Hf1).
    simpl. rewrite (cons_middle (k, v) visited rest), app_assoc in Hnd |- *.
    by apply (IH _ c1 s1).
Qed.

(** C5: in a one-shard cache, after inserting the pairs [kvs] of distinct
    keys with no Get and no eviction, evictBatch(n) for n below the number
    of pairs counts n evictions and removes n entries, the first n
    inserted: Get on each of them finds nothing, and Get on every later
    key still returns its value. *)
Theorem evict_in_insertion_order (kvs : list (string * string)) (n : nat) :
  NoDup kvs.*1 → (n < length kvs)%nat →
  ∃ c c', put_all kvs (NewCacheN 1) = Some c
    ∧ evictBatch_run (Z.of_nat n) c = Some (Z.of_nat n, c')
    ∧ total_entries c = Z.of_nat (length kvs)
    ∧ total_entries c' = Z.of_nat (length kvs) - Z.of_nat n
    ∧ ∀ j k v, kvs !! j = Some (k, v) →
        if decide (j < n)%nat
        then Get k c' = Some (EmptyString, false, c')
        else ∃ c'', Get k c' = Some (v, true, c'').
Proof.
  intros Hnd Hn.
  destruct (put_all_filled kvs [] (NewCacheN 1) emptyShard eq_refl eq_refl
              emptyShard_filled Hnd) as (c & s & Hput & Hsh & Hsc & Hf).
  simpl in Hf. destruct Hf as [Hinv Hl Hh Hit Hnext].
  assert (total_entries c = Z.of_nat (length kvs)) as Htot.
  { unfold total_entries. rewrite Hsh. simpl. unfold Len.
    rewrite Hl, length_fill. lia. }
  exists c.
  assert (∀ k v, (k, v) ∈ kvs → ∃ c'', Get k c = Some (v, true, c'')) as Hfound.
  { intros k v Hin.
    pose proof (Get_unfold k c 0%nat s (getShard_single c k Hsc)) as HG.
    rewrite Hsh in HG. specialize (HG eq_refl). rewrite (Hit k v Hin) in HG.
    destruct HG as (s' & HG & _). eauto. }
  destruct n as [|n].
  - (* nothing asked for: the loop of evictBatch is not entered *)
    exists c. split_and!; try done; try lia.
    + unfold evictBatch_run. rewrite Hsc. rewrite decide_False by done.
      change (Z.to_nat 1) with 1%nat. simpl evictBatch_loop.
      by rewrite decide_False by lia.
    + intros j k v Hj. rewrite decide_False by lia.
      apply Hfound. by eapply list_elem_of_lookup_2.
  - destruct (evict_run_filled s (S n)) as (st & Hrun & Hlst & Hev).
    { by rewrite Hh, Hl. }
    { apply Hinv. }
    { rewrite Hl. apply fill_referenced. }
    { rewrite Hl, length_fill. lia. }
    destruct (evict_run_post (Z.of_nat (S n)) s Hinv) as (st' & Hrun' & Hpost).
    rewrite Hrun in Hrun'. injection Hrun' as <-.
    assert (evictBatch_run (Z.of_nat (S n)) c
            = Some (Z.of_nat (S n), with_shard 0 (sw_shard st) c)) as Hbatch.
    { unfold evictBatch_run. rewrite Hsc. rewrite decide_False by done.
      rewrite Z.quot_1_r. rewrite decide_False by lia.
      change (Z.to_nat 1) with 1%nat. simpl evictBatch_loop. rewrite Hsc.
      rewrite decide_True by lia. rewrite Hsh. simpl.
      unfold evict. rewrite Hrun. simpl. by rewrite Hev. }
    exists (with_shard 0 (sw_shard st) c). split_and!; try done.
    + unfold total_entries. simpl. rewrite Hsh. simpl. unfold Len.
      rewrite Hlst, length_drop, length_clear, Hl, length_fill. lia.
    + intros j k v Hj.
      set (c' := with_shard 0 (sw_shard st) c).
      pose proof (Get_unfold k c' 0%nat (sw_shard st) (getShard_single c k Hsc)) as HG.
      simpl in HG. rewrite Hsh in HG. specialize (HG eq_refl).
      assert (keys (itemsList (sw_shard st)) = drop (S n) kvs.*1) as Hkeys.
      { rewrite Hlst. unfold keys. rewrite fmap_drop. fold (keys (clear (itemsList s))).
        by rewrite keys_clear, Hl, keys_fill. }
      assert (kvs.*1 !! j = Some k) as Hjk by (by rewrite list_lookup_fmap, Hj).
      pose proof (inv_items _ (sp_shard_inv _ _ _ Hpost) k) as Hiff.
      rewrite Hkeys in Hiff.
      destruct (decide (j < S n)%nat) as [Hlt|Hge].
      * destruct (items (sw_shard st) !! k) eqn:E; [|done].
        exfalso. destruct Hiff as [Hiff _].
        assert (k ∈ drop (S n) kvs.*1) as Hin by (apply Hiff; eauto).
        apply list_elem_of_lookup in Hin as [j' Hj'].
        rewrite lookup_drop in Hj'.
        pose proof (NoDup_lookup _ _ _ _ Hnd Hjk Hj'). lia.
      * destruct Hiff as [_ Hiff].
        destruct Hiff as [v' Hv'].
        { apply list_elem_of_lookup. exists (j - S n)%nat.
          rewrite lookup_drop. by replace (S n + (j - S n))%nat with j by lia. }
        rewrite Hv' in HG. destruct HG as (s' & HG & _).
        pose proof (lookup_weaken _ _ _ _ Hv' (sp_items _ _ _ Hpost)) as Hv.
        rewrite (Hit k v (list_elem_of_lookup_2 _ _ _ Hj)) in Hv.
        injection Hv as ->. eauto.
Qed.

Lemma evict_in_insertion_order_witness :
  let kvs := [("a", "1"); ("b", "22"); ("c", "333")] in
  (NoDup kvs.*1 ∧ (2 < length kvs)%nat)
  ∧ ∃ c c', put_all kvs (NewCacheN 1) = Some c
    ∧ evictBatch_run (Z.of_nat 2) c = Some (Z.of_nat 2, c')
    ∧ total_entries c = Z.of_nat (length kvs)
    ∧ total_entries c' = Z.of_nat (length kvs) - Z.of_nat 2
    ∧ ∀ j k v, kvs !! j = Some (k, v) →
        if decide (j < 2)%nat
        then Get k c' = Some (EmptyString, false, c')
        else ∃ c'', Get k c' = Some (v, true, c'').
Proof.
  intros kvs.
  assert (NoDup kvs.*1) as H1
    by (apply (bool_decide_unpack (NoDup kvs.*1)); vm_compute; exact I).
  assert (2 < length kvs)%nat as H2 by (simpl; lia).
  split; [by split|]. exact (evict_in_insertion_order kvs 2 H1 H2).
Defined.

(** ** Memory accounting *)

Lemma wrap64_add_l a b : wrap64 (wrap64 a + b) = wrap64 (a + b).
Proof.
  unfold wrap64.
  replace ((a + 2 ^ 63) mod 2 ^ 64 - 2 ^ 63 + b + 2 ^ 63)
    with ((a + 2 ^ 63) mod 2 ^ 64 + b) by lia.
  rewrite Zplus_mod_idemp_l. f_equal. f_equal. lia.
Qed.

Lemma live_size_insert m c i s s' :
  shards c !! i = Some s →
  live_size (with_memUsage m (with_shard i s' c))
  = live_size c - shard_size s + shard_size s'.
Proof. intros Hs. unfold live_size. simpl. by apply sumZ_insert. Qed.

(** Put reports to the counter exactly what it adds to the sizes. *)
Lemma Put_accounting k v c :
  cache_inv c → Forall sizes_ok (shards c) →
  ∃ c', Put k v c = Some c' ∧ Forall sizes_ok (shards c')
        ∧ memUsage c' = AddInt64 (memUsage c) (live_size c' - live_size c).
Proof.
  intros Hc Hsz. destruct (getShard_wf c k (proj1 Hc)) as (i & s & Hi & Hs).
  pose proof (cache_inv_shard _ _ _ Hc Hs) as Hsi.
  pose proof (Forall_lookup_1 _ _ _ _ Hsz Hs) as Hss.
  unfold Put. rewrite Hi. simpl. rewrite Hs. simpl.
  destruct (items s !! k) as [old|] eqn:Hk.
  - destruct (stored_has_element s k old Hsi Hk) as [e He]. rewrite He.
    pose proof (proj1 (inv_elements _ Hsi k e) He) as Hin.
    destruct (in_ptrs_split e _ (pks_in_ptrs _ _ _ Hin)) as (l1 & x & l2 & Hl & Hx & Hn1).
    pose proof (inv_ptrs _ Hsi) as Hnd. rewrite Hl in Hnd.
    destruct (NoDup_ptrs_split _ _ _ Hnd) as (_ & Hn2 & _). rewrite Hx in Hn2.
    assert (x ∈ itemsList s) as Hxin by (rewrite Hl; set_solver).
    assert (key (Value x) = k) as Hkx.
    { by apply (pks_ptr_key _ e k x (inv_ptrs _ Hsi) (inv_keys _ Hsi) Hin Hxin). }
    destruct (Hss x Hxin) as (v0 & Hv0 & Hsize). rewrite Hkx, Hk in Hv0.
    injection Hv0 as <-. rewrite Hkx in Hsize.
    eexists. split; [reflexivity|]. simpl. rewrite Hl.
    rewrite (updValue_split _ e l1 x l2 Hx Hn1 Hn2).
    split.
    + apply Forall_insert; [done|]. intros y Hy. simpl in *.
      apply elem_of_app in Hy as [Hy|Hy]; [|apply elem_of_cons in Hy as [->|Hy]].
      2:{ simpl. rewrite Hkx, lookup_insert_eq. eauto. }
      all: assert (y ∈ itemsList s) as Hyin by (rewrite Hl; set_solver);
        destruct (Hss y Hyin) as (vy & Hvy & Hsy);
        exists vy; split; [|done];
        rewrite lookup_insert_ne; [done|];
        intros Heq;
        pose proof (proj2 (pks_ptr_key _ e k y (inv_ptrs _ Hsi) (inv_keys _ Hsi)
                             Hin Hyin) (eq_sym Heq)) as Hpy;
        unfold ptrs in Hn1, Hn2; set_solver.
    + rewrite (live_size_insert _ c i s _ Hs).
      unfold shard_size. simpl. rewrite Hl, !sumZ_app. simpl. rewrite Hsize.
      destruct (decide (len v - len old = 0)) as [Hz|Hz].
      * replace (_ - _) with 0 by lia.
        unfold AddInt64. rewrite Z.add_0_r, wrap64_id; [done|apply Hc].
      * f_equal. lia.
  - eexists. split; [reflexivity|]. simpl. split.
    + apply Forall_insert; [done|]. intros y Hy. simpl in *. unfold PushBack in Hy.
      apply elem_of_app in Hy as [Hy|Hy].
      * destruct (Hss y Hy) as (vy & Hvy & Hsy). exists vy. split; [|done].
        rewrite lookup_insert_ne; [done|]. intros Heq. by rewrite Heq, Hvy in Hk.
      * apply list_elem_of_singleton in Hy as ->. simpl.
        rewrite lookup_insert_eq. eauto.
    + rewrite (live_size_insert _ c i s _ Hs).
      unfold shard_size, PushBack. simpl. rewrite sumZ_app. simpl.
      f_equal. lia.
Qed.

(** A batch leaves the counter as it was, however many entries it
    removed. *)
Lemma evictBatch_keeps_counter count c :
  cache_inv c →
  ∃ ev c', evictBatch_run count c = Some (ev, c')
    ∧ memUsage c' = memUsage c
    ∧ total_entries c' + ev = total_entries c.
Proof.
  intros Hc.
  destruct (evictBatch_run_post count c Hc)
    as (ev & c' & Hrun & _ & _ & Htot & Hmem & _).
  by exists ev, c'.
Qed.

(** C1 at a failing input: after Put("a","1") on a fresh cache the
    counter and the sum of the live sizes are both 2; a monitor wake-up
    that samples 800 MB allocated of 1000 MB obtained (ratio 0.8) then
    evicts the entry, the sum of the live sizes is 0, and the counter is
    still 2. *)
Theorem eviction_leaves_counter :
  let c1 := Put "a" "1" NewCache in
  let c2 := c1 ≫= monitor_tick (mkMemStats 800000000 1000000000) in
  memUsage <$> c1 = Some 2
  ∧ live_size <$> c1 = Some 2
  ∧ total_entries <$> c1 = Some 1
  ∧ total_entries <$> c2 = Some 0
  ∧ live_size <$> c2 = Some 0
  ∧ memUsage <$> c2 = Some 2.
Proof. vm_compute. by split_and!. Qed.

(** Put keeps the counter equal to the sum of the live sizes. *)
Lemma Put_keeps_accounted k v c :
  cache_inv c → Forall sizes_ok (shards c) → accounted c →
  ∃ c', Put k v c = Some c' ∧ Forall sizes_ok (shards c') ∧ accounted c'.
Proof.
  intros Hc Hsz Hacc.
  destruct (Put_accounting k v c Hc Hsz) as (c' & HP & Hsz' & Hm).
  exists c'. split_and!; try done.
  unfold accounted in *. rewrite Hm, Hacc. unfold AddInt64.
  rewrite wrap64_add_l. f_equal. lia.
Qed.

(** ** Concrete states *)

Lemma cache_a_reached : Put "a" "1" (NewCacheN 1) = Some cache_a.
Proof. reflexivity. Qed.

Lemma cache_a_inv : cache_inv cache_a.
Proof.
  assert (cache_inv (NewCacheN 1)) as H by (apply NewCacheN_inv; simpl; lia).
  destruct (Put_inv "a" "1" (NewCacheN 1) H) as (c & Hc & Hinv).
  rewrite cache_a_reached in Hc. by injection Hc as <-.
Qed.

Lemma put_existing_frame_witness :
  (cache_inv cache_a ∧ getShard cache_a "a" = Some 0%nat
   ∧ shards cache_a !! 0%nat = Some shard_a ∧ items shard_a !! "a" = Some "1")
  ∧ ∃ s',
    Put "a" "22" cache_a
    = Some (mkShardedCache (<[0%nat := s']> (shards cache_a)) (shardCount cache_a)
              (maxMemoryPct cache_a)
              (if decide (len "22" - len "1" = 0) then memUsage cache_a
               else AddInt64 (memUsage cache_a) (len "22" - len "1")))
    ∧ items s' = <["a" := "22"]> (items shard_a)
    ∧ dom (items s') = dom (items shard_a)
    ∧ elements s' = elements shard_a
    ∧ clockHand s' = clockHand shard_a
    ∧ nextPtr s' = nextPtr shard_a
    ∧ pks (itemsList s') = pks (itemsList shard_a)
    ∧ itemsList s'
      = (λ x, if decide (key (Value x) = "a")
              then mkElement (ptr x) (mkClockItem "a" true (len "a" + len "22"))
              else x) <$> itemsList shard_a
    ∧ "a" ∈ keys (itemsList shard_a).
Proof.
  pose proof cache_a_inv as H1.
  assert (getShard cache_a "a" = Some 0%nat) as H2 by reflexivity.
  assert (shards cache_a !! 0%nat = Some shard_a) as H3 by reflexivity.
  assert (items shard_a !! "a" = Some "1") as H4 by reflexivity.
  split; [by split_and!|].
  exact (put_existing_frame cache_a "a" "22" "1" 0 shard_a H1 H2 H3 H4).
Defined.

(** * Further properties of the engine *)

(** ** Routing *)





(** ** The clock hand goes round *)

(** X2: in a queue without repeated addresses, nextOrFirst of the node
    at position i is the node at position i + 1, and the front node for
    the last one: the circular successor. *)
Theorem nextOrFirst_circular (l : list Element) (i : nat) (e : nat) :
  NoDup (ptrs l) → ptrs l !! i = Some e →
  nextOrFirst e l = ptrs l !! ((i + 1) mod length l)%nat.
Proof.
  intros Hnd Hi.
  assert (i < length l)%nat as Hlt.
  { apply lookup_lt_Some in Hi. unfold ptrs in Hi. by rewrite length_fmap in Hi. }
  unfold ptrs in Hi. rewrite list_lookup_fmap in Hi.
  destruct (l !! i) as [x|] eqn:Hx; [|done]. injection Hi as Hi.
  pose proof (take_drop_middle l i x Hx) as Hsplit.
  assert (e ∉ ptrs (take i l)) as Hnot.
  { rewrite <- Hsplit in Hnd. apply NoDup_ptrs_split in Hnd as (H1 & _). by rewrite Hi in H1. }
  rewrite <- Hsplit at 1. rewrite (nextOrFirst_split e _ x _ Hi Hnot).
  destruct (drop (S i) l) as [|y l2] eqn:Hd.
  - assert (length l = S i) as Hlen.
    { apply (f_equal length) in Hd. rewrite length_drop in Hd. simpl in Hd. lia. }
    replace (i + 1)%nat with (length l) by lia. rewrite Nat.Div0.mod_same.
    simpl. rewrite <- Hsplit at 2. unfold Front, ptrs.
    by destruct (take i l).
  - assert (S i < length l)%nat as Hlt'.
    { apply (f_equal length) in Hd. rewrite length_drop in Hd. simpl in Hd. lia. }
    rewrite Nat.mod_small by lia. simpl.
    unfold ptrs. rewrite list_lookup_fmap.
    replace (i + 1)%nat with (S i + 0)%nat by lia.
    rewrite <- Hsplit. rewrite lookup_app_r by (rewrite length_take; lia).
    rewrite length_take. replace (S i + 0 - i `min` length l)%nat with 1%nat by lia.
    done.
Qed.

Lemma nextOrFirst_circular_witness :
  let l := [mkElement 4 (mkClockItem "a" true 2); mkElement 7 (mkClockItem "b" false 3)] in
  (NoDup (ptrs l) ∧ ptrs l !! 1%nat = Some 7%nat)
  ∧ nextOrFirst 7 l = ptrs l !! ((1 + 1) mod length l)%nat.
Proof.
  intros l.
  assert (NoDup (ptrs l)) as H1
    by (apply (bool_decide_unpack (NoDup (ptrs l))); vm_compute; exact I).
  assert (ptrs l !! 1%nat = Some 7%nat) as H2 by reflexivity.
  split; [by split|]. exact (nextOrFirst_circular l 1 7 H1 H2).
Defined.

(** ** What Get changes *)

Lemma mark_absent k l : k ∉ keys l → mark k l = l.
Proof.
  unfold mark, keys. induction l as [|x l IH]; simpl; [done|].
  intros H. rewrite decide_False by set_solver. f_equal. apply IH. set_solver.
Qed.

Lemma mark_idemp k l : mark k (mark k l) = mark k l.
Proof.
  unfold mark. rewrite <- list_fmap_compose. apply list_fmap_ext.
  intros j x _. simpl. destruct (decide (key (Value x) = k)) as [Hk|Hk]; simpl.
  - by rewrite decide_True.
  - by rewrite decide_False.
Qed.

Lemma with_shard_id i s c : shards c !! i = Some s → with_shard i s c = c.
Proof.
  intros Hs. unfold with_shard. rewrite list_insert_id by done. by destruct c.
Qed.

Lemma mark_miss c k i s :
  cache_inv c → shards c !! i = Some s → items s !! k = None →
  with_shard i (with_itemsList (mark k (itemsList s)) s) c = c.
Proof.
  intros Hc Hs Hk. pose proof (cache_inv_shard _ _ _ Hc Hs) as Hsi.
  rewrite mark_absent.
  - replace (with_itemsList (itemsList s) s) with s by (by destruct s).
    by apply with_shard_id.
  - intros Hin. apply (inv_items _ Hsi) in Hin. rewrite Hk in Hin. by destruct Hin.
Qed.

Lemma Get_mark c k i s :
  cache_inv c → getShard c k = Some i → shards c !! i = Some s →
  Get k c = Some (default EmptyString (items s !! k),
                  bool_decide (is_Some (items s !! k)),
                  with_shard i (with_itemsList (mark k (itemsList s)) s) c).
Proof.
  intros Hc Hi Hs. pose proof (cache_inv_shard _ _ _ Hc Hs) as Hsi.
  unfold Get. rewrite Hi. simpl. rewrite Hs. simpl.
  destruct (items s !! k) as [v|] eqn:Hk; simpl.
  - destruct (stored_has_element s k v Hsi Hk) as [e He]. rewrite He.
    rewrite (updValue_by_key _ s k e Hsi He). done.
  - by rewrite mark_miss.
Qed.

(** X3: Get returns the stored value with true, or the empty string with
    false when the key is not stored, and the only thing it changes is the
    referenced bit of the key's queue node, which it sets: maps, queue
    order, sizes, clock hand, the other shards and the counter stay as
    they are, and a miss changes nothing at all. *)
Theorem Get_frame (c : ShardedCache) (k : string) (i : nat) (s : CacheShard) :
  cache_inv c → getShard c k = Some i → shards c !! i = Some s →
  Get k c = Some (default EmptyString (items s !! k),
                  bool_decide (is_Some (items s !! k)),
                  with_shard i (with_itemsList (mark k (itemsList s)) s) c)
  ∧ (items s !! k = None →
     with_shard i (with_itemsList (mark k (itemsList s)) s) c = c).
Proof.
  intros Hc Hi Hs. split.
  - by apply Get_mark.
  - intros Hk. by apply (mark_miss c k i s).
Qed.

Lemma Get_frame_witness :
  (cache_inv cache_a ∧ getShard cache_a "a" = Some 0%nat
   ∧ shards cache_a !! 0%nat = Some shard_a)
  ∧ Get "a" cache_a
    = Some (default EmptyString (items shard_a !! "a"),
            bool_decide (is_Some (items shard_a !! "a")),
            with_shard 0 (with_itemsList (mark "a" (itemsList shard_a)) shard_a) cache_a)
  ∧ (items shard_a !! "a" = None →
     with_shard 0 (with_itemsList (mark "a" (itemsList shard_a)) shard_a) cache_a
     = cache_a).
Proof.
  pose proof cache_a_inv as H1.
  assert (getShard cache_a "a" = Some 0%nat) as H2 by reflexivity.
  assert (shards cache_a !! 0%nat = Some shard_a) as H3 by reflexivity.
  split; [by split_and!|]. exact (Get_frame cache_a "a" 0 shard_a H1 H2 H3).
Defined.

(** X4: a second Get of the same key returns the same answer and leaves
    the state the first Get left. *)
Theorem Get_idempotent (c c1 : ShardedCache) (k v : string) (b : bool) :
  cache_inv c → Get k c = Some (v, b, c1) → Get k c1 = Some (v, b, c1).
Proof.
  intros Hc HG.
  destruct (getShard_wf c k (proj1 Hc)) as (i & s & Hi & Hs).
  pose proof (Get_mark c k i s Hc Hi Hs) as HF.
  rewrite HF in HG. injection HG as <- <- <-.
  set (s1 := with_itemsList (mark k (itemsList s)) s).
  assert (cache_inv (with_shard i s1 c)) as Hc1.
  { destruct (Get_inv k c Hc) as (v' & b' & c' & HG' & Hc').
    rewrite HF in HG'. by injection HG' as _ _ <-. }
  assert (shards (with_shard i s1 c) !! i = Some s1) as Hs1.
  { simpl. apply list_lookup_insert_eq. by eapply lookup_lt_Some. }
  pose proof (Get_mark (with_shard i s1 c) k i s1 Hc1 Hi Hs1) as HF1.
  rewrite HF1. simpl. rewrite mark_idemp.
  do 2 f_equal. unfold with_shard. simpl. by rewrite list_insert_insert_eq.
Qed.

Lemma Get_idempotent_witness :
  ∃ c1, (cache_inv cache_a ∧ Get "a" cache_a = Some ("1", true, c1))
        ∧ Get "a" c1 = Some ("1", true, c1).
Proof.
  eexists.
  assert (Get "a" cache_a = Some ("1", true, _)) as H2 by reflexivity.
  split; [split; [exact cache_a_inv|exact H2]|].
  exact (Get_idempotent cache_a _ "a" "1" true cache_a_inv H2).
Defined.

(** ** Edge cases and reach of the sweep *)

(** X5: a request for no or a negative number of evictions is a no-op:
    evict returns 0 and the shard as it was, and evictBatch (on a cache
    with at least one shard) returns the cache as it was. *)
Theorem evict_nonpositive (count : Z) (s : CacheShard) (c : ShardedCache) :
  count <= 0 →
  evict count s = Some (0, s)
  ∧ (shardCount c ≠ 0 → evictBatch count c = Some c).
Proof.
  intros Hcount. split.
  - unfold evict, evict_run. destruct (decide _); [done|].
    rewrite evict_loop_done by (simpl; lia). done.
  - intros Hsc. unfold evictBatch, evictBatch_run. rewrite decide_False by done.
    destruct (Z.to_nat (shardCount c)); simpl; by rewrite decide_False by lia.
Qed.

Lemma evict_nonpositive_witness :
  -3 <= 0
  ∧ evict (-3) shard_a = Some (0, shard_a)
  ∧ (shardCount cache_a ≠ 0 → evictBatch (-3) cache_a = Some cache_a).
Proof.
  assert (-3 <= 0) as H by lia.
  split; [exact H|]. exact (evict_nonpositive (-3) shard_a cache_a H).
Defined.

(** X6: a sweep asked for at least as many evictions as the shard holds
    entries evicts every one of them, whatever their referenced bits: it
    returns the number of entries and leaves both maps and the queue
    empty and the hand nil. *)
Theorem evict_all_empties (count : Z) (s : CacheShard) :
  shard_inv s → Len (itemsList s) <= count →
  ∃ s', evict count s = Some (Len (itemsList s), s')
    ∧ itemsList s' = [] ∧ clockHand s' = None
    ∧ items s' = ∅ ∧ elements s' = ∅.
Proof.
  intros Hs Hcount.
  destruct (evict_post count s Hs) as (n & s' & He & Hs' & Hn & Hlen & _).
  pose proof (Len_nonneg (itemsList s)).
  assert (n = Len (itemsList s)) as -> by lia.
  assert (itemsList s' = []) as Hl.
  { unfold Len in Hlen. destruct (itemsList s'); [done|]. simpl in Hlen. lia. }
  exists s'. split_and!; try done.
  - pose proof (inv_hand _ Hs') as Hh. destruct (clockHand s'); [|done].
    rewrite Hl in Hh. by apply elem_of_nil in Hh.
  - apply map_empty. intros k. destruct (items s' !! k) eqn:E; [|done].
    assert (k ∈ keys (itemsList s')) as Hin by (apply (inv_items _ Hs'); eauto).
    rewrite Hl in Hin. by apply elem_of_nil in Hin.
  - apply map_empty. intros k. destruct (elements s' !! k) eqn:E; [|done].
    apply (inv_elements _ Hs') in E. rewrite Hl in E. by apply elem_of_nil in E.
Qed.

Lemma shard_a_inv : shard_inv shard_a.
Proof. by apply (cache_inv_shard cache_a 0 shard_a cache_a_inv). Qed.

Lemma evict_all_empties_witness :
  (shard_inv shard_a ∧ Len (itemsList shard_a) <= 5)
  ∧ ∃ s', evict 5 shard_a = Some (Len (itemsList shard_a), s')
    ∧ itemsList s' = [] ∧ clockHand s' = None
    ∧ items s' = ∅ ∧ elements s' = ∅.
Proof.
  assert (Len (itemsList shard_a) <= 5) as H by (vm_compute; discriminate).
  split; [split; [exact shard_a_inv|exact H]|].
  exact (evict_all_empties 5 shard_a shard_a_inv H).
Defined.

(** ** What the sweep leaves alone *)

Lemma clears_refl x : clears x x.
Proof. by repeat split. Qed.

Lemma survivors_refl l : survivors_of l l.
Proof. intros x Hx. exists x. split; [done|apply clears_refl]. Qed.

Lemma survivors_trans l1 l2 l3 :
  survivors_of l1 l2 → survivors_of l2 l3 → survivors_of l1 l3.
Proof.
  intros H12 H23 x1 Hx1.
  destruct (H12 x1 Hx1) as (x2 & Hx2 & (A1 & A2 & A3 & A4)).
  destruct (H23 x2 Hx2) as (x3 & Hx3 & (B1 & B2 & B3 & B4)).
  exists x3. split; [done|]. unfold clears. split_and!; try congruence. tauto.
Qed.

Lemma evict_body_survivors s0 count st st' brk :
  sweep_inv s0 count st → evict_body st = Some (st', brk) →
  survivors_of (itemsList (sw_shard st')) (itemsList (sw_shard st)).
Proof.
  intros Hinv Hbody.
  destruct (sweep_hand _ (sw_shard_inv _ _ _ Hinv) (sw_nonempty _ _ _ Hinv))
    as (l1 & x & l2 & Hl & Hh).
  pose proof (inv_ptrs _ (sw_shard_inv _ _ _ Hinv)) as Hnd.
  destruct (referenced (Value x)) eqn:Href.
  - rewrite (evict_body_second_chance st l1 l2 x Hl Hh Hnd Href) in Hbody.
    injection Hbody as <- <-. simpl. rewrite Hl.
    intros y [Hy|Hy]%elem_of_app; [|apply elem_of_cons in Hy as [->|Hy]].
    + exists y. split; [set_solver|apply clears_refl].
    + exists x. split; [set_solver|]. by repeat split.
    + exists y. split; [set_solver|apply clears_refl].
  - rewrite (evict_body_remove st l1 l2 x Hl Hh Hnd Href) in Hbody.
    destruct (decide (l1 ++ l2 = [])); injection Hbody as <- <-; simpl.
    + intros y Hy. by apply elem_of_nil in Hy.
    + rewrite Hl. intros y Hy. exists y. split; [set_solver|apply clears_refl].
Qed.

Lemma evict_loop_survivors s0 count maxA fuel : ∀ st st',
  sweep_inv s0 count st → evict_loop fuel count maxA st = Some st' →
  survivors_of (itemsList (sw_shard st')) (itemsList (sw_shard st)).
Proof.
  induction fuel as [|fuel IH]; intros st st' Hinv Hloop; simpl in Hloop.
  - destruct (decide _); [done|]. injection Hloop as <-. apply survivors_refl.
  - destruct (decide _) as [[Hc Ha]|Hg].
    2:{ injection Hloop as <-. apply survivors_refl. }
    destruct (evict_body_inv s0 count st Hinv Hc) as (st1 & brk & Hbody & _ & Hst1).
    rewrite Hbody in Hloop. simpl in Hloop.
    pose proof (evict_body_survivors s0 count st st1 brk Hinv Hbody) as Hsv.
    destruct brk.
    + by injection Hloop as <-.
    + eapply survivors_trans; [|exact Hsv]. by apply IH.
Qed.

(** X7: the sweep only clears bits and removes nodes.  Every node left in
    the queue is a node that was there, with its address, key and size;
    its referenced bit is set only if it was set before; the nodes left
    are in their old order; and every key still stored has its old
    value. *)
Theorem evict_survivors (count n : Z) (s s' : CacheShard) :
  shard_inv s → evict count s = Some (n, s') →
  survivors_of (itemsList s') (itemsList s)
  ∧ pks (itemsList s') `sublist_of` pks (itemsList s)
  ∧ (∀ k v, items s' !! k = Some v → items s !! k = Some v).
Proof.
  intros Hs He.
  destruct (evict_post count s Hs) as (n' & s1 & He' & _ & _ & _ & Hit & Hord).
  rewrite He in He'. injection He' as <- <-.
  split_and!; [|done|].
  - unfold evict in He. destruct (evict_run count s) as [st|] eqn:Hrun; [|done].
    simpl in He. injection He as _ <-.
    unfold evict_run in Hrun. destruct (decide _) as [Hempty|Hne].
    + injection Hrun as <-. apply survivors_refl.
    + change (itemsList s) with (itemsList (sw_shard (mkSweep s 0 0))).
      eapply (evict_loop_survivors s count); [|exact Hrun].
      constructor; simpl; try done; try lia.
      intros Hl. apply Hne. right. by rewrite Hl.
  - intros k v Hk. by eapply lookup_weaken.
Qed.

Lemma evict_survivors_witness :
  ∃ n s', (shard_inv shard_a ∧ evict 1 shard_a = Some (n, s'))
    ∧ survivors_of (itemsList s') (itemsList shard_a)
    ∧ pks (itemsList s') `sublist_of` pks (itemsList shard_a)
    ∧ (∀ k v, items s' !! k = Some v → items shard_a !! k = Some v).
Proof.
  eexists _, _.
  assert (evict 1 shard_a = Some (_, _)) as H by reflexivity.
  split; [split; [exact shard_a_inv|exact H]|].
  exact (evict_survivors 1 _ shard_a _ shard_a_inv H).
Defined.

(** X8: an eviction batch never changes what a stored key maps to: after
    it, Get of any key either misses or returns the value Get returned
    before. *)
Theorem evictBatch_values (count : Z) (c c' : ShardedCache) (k : string) :
  cache_inv c → evictBatch count c = Some c' →
  Get k c' = Some (EmptyString, false, c')
  ∨ ∃ v c1 c1', Get k c = Some (v, true, c1) ∧ Get k c' = Some (v, true, c1').
Proof.
  intros Hc Hb.
  destruct (evictBatch_run_post count c Hc)
    as (ev & c2 & Hrun & Hc' & _ & _ & _ & Hsc & _ & Hsub & _).
  unfold evictBatch in Hb. rewrite Hrun in Hb. simpl in Hb. injection Hb as ->.
  destruct (getShard_wf c' k (proj1 Hc')) as (i & s' & Hi & Hs').
  destruct (Hsub i s' Hs') as (s & Hs & Hit & _).
  assert (getShard c k = Some i) as Hi0 by (unfold getShard in *; by rewrite <- Hsc).
  pose proof (Get_unfold k c' i s' Hi Hs') as HG'.
  destruct (items s' !! k) as [v|] eqn:Hv; [right|by left].
  destruct HG' as (s1' & HG' & _).
  pose proof (Get_unfold k c i s Hi0 Hs) as HG.
  rewrite (lookup_weaken _ _ _ _ Hv Hit) in HG. destruct HG as (s1 & HG & _).
  eauto.
Qed.

Lemma evictBatch_values_witness :
  ∃ c', (cache_inv cache_a ∧ evictBatch 1 cache_a = Some c')
    ∧ (Get "a" c' = Some (EmptyString, false, c')
       ∨ ∃ v c1 c1', Get "a" cache_a = Some (v, true, c1)
                     ∧ Get "a" c' = Some (v, true, c1')).
Proof.
  eexists.
  assert (evictBatch 1 cache_a = Some _) as H by reflexivity.
  split; [split; [exact cache_a_inv|exact H]|].
  exact (evictBatch_values 1 cache_a _ "a" cache_a_inv H).
Defined.

(** ** How Puts compose *)

Lemma Put_eq k v c i s :
  getShard c k = Some i → shards c !! i = Some s →
  Put k v c = Some (mkShardedCache (<[i := put_shard k v s]> (shards c))
                                   (shardCount c) (maxMemoryPct c)
                                   (put_mem k v s (memUsage c))).
Proof.
  intros Hi Hs. unfold Put, put_shard, put_mem. rewrite Hi. simpl. rewrite Hs. simpl.
  by destruct (items s !! k).
Qed.

Lemma put_mem_eq k v s m :
  in_int64 m → put_mem k v s m = AddInt64 m (put_delta k v s) ∧ in_int64 (put_mem k v s m).
Proof.
  intros Hm. unfold put_mem, put_delta. destruct (items s !! k) as [old|].
  - destruct (decide _) as [->|].
    + unfold AddInt64. rewrite Z.add_0_r, wrap64_id by done. by split.
    + split; [done|apply wrap64_range].
  - split; [done|apply wrap64_range].
Qed.

Lemma length_updValue' f e l : length (updValue f e l) = length l.
Proof. unfold updValue. by rewrite length_fmap. Qed.

Lemma updValue_updValue f g e l :
  updValue f e (updValue g e l) = updValue (f ∘ g) e l.
Proof.
  unfold updValue. rewrite <- list_fmap_compose. apply list_fmap_ext.
  intros j x _. simpl. destruct (decide (ptr x = e)); simpl.
  - by rewrite decide_True.
  - by rewrite decide_False.
Qed.

Lemma put_shard_twice k v1 v2 s :
  shard_inv s → put_shard k v2 (put_shard k v1 s) = put_shard k v2 s.
Proof.
  intros Hs. unfold put_shard at 2 3.
  destruct (items s !! k) as [old|] eqn:Hk.
  - destruct (stored_has_element s k old Hs Hk) as [e He]. rewrite He.
    unfold put_shard. simpl. rewrite lookup_insert_eq, He.
    unfold with_itemsList, with_items. simpl.
    rewrite insert_insert_eq, updValue_updValue. done.
  - unfold put_shard. simpl. rewrite !lookup_insert_eq.
    unfold with_itemsList, with_items, PushBack. simpl.
    rewrite insert_insert_eq. f_equal.
    assert (nextPtr s ∉ ptrs (itemsList s)) as Hn.
    { intros Hin. apply (inv_fresh _ Hs) in Hin. lia. }
    unfold updValue. rewrite fmap_app. simpl. rewrite decide_True by done.
    fold (updValue (set_referenced_size true (len k + len v2)) (nextPtr s) (itemsList s)).
    by rewrite updValue_notin.
Qed.

Lemma put_mem_twice k v1 v2 s m :
  in_int64 m → put_mem k v2 (put_shard k v1 s) (put_mem k v1 s m) = put_mem k v2 s m.
Proof.
  intros Hm.
  destruct (put_mem_eq k v1 s m Hm) as [E1 R1].
  destruct (put_mem_eq k v2 (put_shard k v1 s) _ R1) as [E2 _].
  destruct (put_mem_eq k v2 s m Hm) as [E3 _].
  rewrite E2, E1, E3. unfold AddInt64. rewrite wrap64_add_l. f_equal.
  assert (items (put_shard k v1 s) !! k = Some v1) as Hv1.
  { unfold put_shard. destruct (items s !! k); simpl.
    - destruct (elements s !! k); simpl; apply lookup_insert_eq.
    - apply lookup_insert_eq. }
  unfold put_delta. rewrite Hv1. destruct (items s !! k); lia.
Qed.

(** X9: the last write wins, exactly: Put(k, v1) followed by Put(k, v2)
    leaves the same state, counter included, as Put(k, v2) alone. *)
Theorem Put_last_write_wins (c : ShardedCache) (k v1 v2 : string) :
  cache_inv c → Put k v1 c ≫= Put k v2 = Put k v2 c.
Proof.
  intros Hc. destruct (getShard_wf c k (proj1 Hc)) as (i & s & Hi & Hs).
  pose proof (cache_inv_shard _ _ _ Hc Hs) as Hsi.
  rewrite (Put_eq k v1 c i s Hi Hs). simpl.
  rewrite (Put_eq k v2 _ i (put_shard k v1 s)); [|done|].
  2:{ simpl. apply list_lookup_insert_eq. by eapply lookup_lt_Some. }
  rewrite (Put_eq k v2 c i s Hi Hs). simpl.
  rewrite list_insert_insert_eq, put_shard_twice by done.
  rewrite put_mem_twice; [done|apply Hc].
Qed.

Lemma Put_last_write_wins_witness :
  cache_inv cache_a
  ∧ Put "a" "first" cache_a ≫= Put "a" "second" = Put "a" "second" cache_a.
Proof.
  split; [exact cache_a_inv|].
  exact (Put_last_write_wins cache_a "a" "first" "second" cache_a_inv).
Defined.

(** X10: Puts of keys that route to different shards commute: either
    order leaves the same state, counter included. *)
Theorem Put_commute (c : ShardedCache) (k1 v1 k2 v2 : string) :
  cache_wf c → getShard c k1 ≠ getShard c k2 →
  Put k1 v1 c ≫= Put k2 v2 = Put k2 v2 c ≫= Put k1 v1.
Proof.
  intros Hwf Hne.
  destruct (getShard_wf c k1 Hwf) as (i1 & s1 & Hi1 & Hs1).
  destruct (getShard_wf c k2 Hwf) as (i2 & s2 & Hi2 & Hs2).
  assert (i1 ≠ i2) as Hi by congruence.
  rewrite (Put_eq k1 v1 c i1 s1 Hi1 Hs1), (Put_eq k2 v2 c i2 s2 Hi2 Hs2). simpl.
  rewrite (Put_eq k2 v2 _ i2 s2); [|done|by simpl; rewrite list_lookup_insert_ne].
  rewrite (Put_eq k1 v1 _ i1 s1); [|done|by simpl; rewrite list_lookup_insert_ne].
  simpl. rewrite (list_insert_insert_ne _ i2 i1) by done.
  do 2 f_equal.
  assert (in_int64 (memUsage c)) as Hm by apply Hwf.
  destruct (put_mem_eq k1 v1 s1 _ Hm) as [E1 R1].
  destruct (put_mem_eq k2 v2 s2 _ Hm) as [E2 R2].
  destruct (put_mem_eq k2 v2 s2 _ R1) as [E3 _].
  destruct (put_mem_eq k1 v1 s1 _ R2) as [E4 _].
  rewrite E3, E4, E1, E2. unfold AddInt64. rewrite !wrap64_add_l. f_equal. lia.
Qed.

Lemma Put_commute_witness :
  (cache_wf (NewCacheN 2) ∧ getShard (NewCacheN 2) "a" ≠ getShard (NewCacheN 2) "b")
  ∧ Put "a" "1" (NewCacheN 2) ≫= Put "b" "2" = Put "b" "2" (NewCacheN 2) ≫= Put "a" "1".
Proof.
  assert (cache_wf (NewCacheN 2)) as H1 by (apply NewCacheN_wf; simpl; lia).
  assert (getShard (NewCacheN 2) "a" ≠ getShard (NewCacheN 2) "b") as H2
    by (vm_compute; discriminate).
  split; [by split|]. exact (Put_commute (NewCacheN 2) "a" "1" "b" "2" H1 H2).
Defined.

(** ** What Put never does *)

Lemma put_shard_keeps k v s :
  pks (itemsList s) `prefix_of` pks (itemsList (put_shard k v s))
  ∧ Len (itemsList s) <= Len (itemsList (put_shard k v s)) <= Len (itemsList s) + 1
  ∧ items (put_shard k v s) = <[k := v]> (items s)
  ∧ (∀ h, clockHand s = Some h → clockHand (put_shard k v s) = Some h).
Proof.
  unfold put_shard. destruct (items s !! k).
  - destruct (elements s !! k); simpl; split_and!; try done; try lia.
    + by rewrite pks_updValue.
    + unfold Len. rewrite length_updValue'. lia.
    + unfold Len. rewrite length_updValue'. lia.
  - simpl. unfold PushBack. rewrite pks_app. split_and!; try done.
    + by apply prefix_app_r.
    + rewrite Len_app. unfold Len. simpl. lia.
    + rewrite Len_app. unfold Len. simpl. lia.
    + intros h ->. done.
Qed.

(** X11: Put never removes or reorders anything.  After any Put the
    cache holds the same entries or one more; in every shard the old
    queue is a prefix of the new one; every other key keeps its value;
    and a hand that was on a node stays on it. *)
Theorem Put_never_removes (c c' : ShardedCache) (k v : string) :
  cache_wf c → Put k v c = Some c' →
  total_entries c <= total_entries c' <= total_entries c + 1
  ∧ ∀ j s, shards c !! j = Some s →
      ∃ s', shards c' !! j = Some s'
        ∧ pks (itemsList s) `prefix_of` pks (itemsList s')
        ∧ (∀ k', k' ≠ k → items s' !! k' = items s !! k')
        ∧ (∀ h, clockHand s = Some h → clockHand s' = Some h).
Proof.
  intros Hwf HP. destruct (getShard_wf c k Hwf) as (i & s & Hi & Hs).
  rewrite (Put_eq k v c i s Hi Hs) in HP. injection HP as <-.
  destruct (put_shard_keeps k v s) as (Hpre & Hlen & Hit & Hh).
  split.
  - unfold total_entries. simpl. rewrite (sumZ_insert _ _ _ s) by done. lia.
  - intros j sj Hj. simpl. destruct (decide (j = i)) as [->|Hne].
    + rewrite Hs in Hj. injection Hj as <-.
      exists (put_shard k v s). split_and!; try done.
      * apply list_lookup_insert_eq. by eapply lookup_lt_Some.
      * intros k' Hk'. by rewrite Hit, lookup_insert_ne.
    + exists sj. split_and!; try done. by rewrite list_lookup_insert_ne.
Qed.

Lemma Put_never_removes_witness :
  ∃ c', (cache_wf cache_a ∧ Put "b" "22" cache_a = Some c')
    ∧ total_entries cache_a <= total_entries c' <= total_entries cache_a + 1
    ∧ ∀ j s, shards cache_a !! j = Some s →
        ∃ s', shards c' !! j = Some s'
          ∧ pks (itemsList s) `prefix_of` pks (itemsList s')
          ∧ (∀ k', k' ≠ "b" → items s' !! k' = items s !! k')
          ∧ (∀ h, clockHand s = Some h → clockHand s' = Some h).
Proof.
  eexists.
  assert (Put "b" "22" cache_a = Some _) as H by reflexivity.
  split; [split; [exact (proj1 cache_a_inv)|exact H]|].
  exact (Put_never_removes cache_a _ "b" "22" (proj1 cache_a_inv) H).
Defined.

(** ** The counter without eviction *)

Lemma sumZ_fmap_ext {A} (f : A → Z) (g : A → A) l :
  (∀ x, f (g x) = f x) → sumZ f (g <$> l) = sumZ f l.
Proof.
  intros H. unfold sumZ. induction l as [|x l IH]; csimpl; [done|]. by rewrite H, IH.
Qed.

Lemma shard_size_mark k s :
  shard_size (with_itemsList (mark k (itemsList s)) s) = shard_size s.
Proof.
  unfold shard_size, mark. simpl. apply sumZ_fmap_ext.
  intros x. by destruct (decide _).
Qed.

Lemma sizes_ok_mark k s : sizes_ok s → sizes_ok (with_itemsList (mark k (itemsList s)) s).
Proof.
  intros Hs x' Hx'. simpl in *. unfold mark in Hx'.
  apply list_elem_of_fmap in Hx' as (x & -> & Hx).
  destruct (Hs x Hx) as (v & Hv & Hsz). exists v.
  by destruct (decide _).
Qed.

Lemma Forall_with_shard (P : CacheShard → Prop) c i s' :
  Forall P (shards c) → P s' → Forall P (shards (with_shard i s' c)).
Proof.
  intros Hall Hs. simpl. destruct (decide (i < length (shards c))%nat).
  - by apply Forall_insert.
  - by rewrite list_insert_ge by lia.
Qed.

Lemma step_accounted o c :
  cache_inv c → Forall sizes_ok (shards c) → accounted c → no_evict o →
  ∃ c', step o c = Some c' ∧ cache_inv c' ∧ Forall sizes_ok (shards c') ∧ accounted c'.
Proof.
  intros Hc Hsz Hacc Ho. destruct o as [k|k v|count]; simpl in *; [| |done].
  - destruct (getShard_wf c k (proj1 Hc)) as (i & s & Hi & Hs).
    rewrite (Get_mark c k i s Hc Hi Hs). simpl.
    eexists. split; [done|].
    destruct (Get_inv k c Hc) as (v & b & c' & HG & Hc').
    rewrite (Get_mark c k i s Hc Hi Hs) in HG. injection HG as _ _ <-.
    split_and!; [done| |].
    + apply Forall_with_shard; [done|].
      apply sizes_ok_mark. by eapply Forall_lookup_1.
    + unfold accounted, live_size in *. simpl.
      rewrite (sumZ_insert _ _ _ s) by done. rewrite shard_size_mark.
      rewrite Hacc. f_equal. lia.
  - destruct (Put_keeps_accounted k v c Hc Hsz Hacc) as (c' & HP & Hsz' & Hacc').
    destruct (Put_inv k v c Hc) as (c2 & HP2 & Hc2).
    rewrite HP in HP2. injection HP2 as <-. by exists c'.
Qed.

Lemma live_size_NewCacheN n : live_size (NewCacheN n) = 0.
Proof. unfold live_size. simpl. induction n as [|n IH]; simpl; [done|]. by rewrite IH. Qed.

Lemma NewCacheN_accounted n :
  Forall sizes_ok (shards (NewCacheN n)) ∧ accounted (NewCacheN n).
Proof.
  split.
  - simpl. apply Forall_replicate. intros x Hx. by apply elem_of_nil in Hx.
  - unfold accounted. by rewrite live_size_NewCacheN.
Qed.

(** X12: as long as nothing is evicted the counter is exact.  From a
    state in which it equals the sum of the entry sizes (as an int64) and
    every size is key length plus value length, any run of Gets and Puts
    ends in such a state. *)
Theorem accounted_without_eviction (c : ShardedCache) (ops : list Op) :
  cache_inv c → Forall sizes_ok (shards c) → accounted c → Forall no_evict ops →
  ∃ c', run ops c = Some c' ∧ cache_inv c'
        ∧ Forall sizes_ok (shards c') ∧ memUsage c' = wrap64 (live_size c').
Proof.
  revert c. induction ops as [|o ops IH]; intros c Hc Hsz Hacc Hops; simpl.
  - by exists c.
  - apply Forall_cons in Hops as [Ho Hops].
    destruct (step_accounted o c Hc Hsz Hacc Ho) as (c1 & -> & Hc1 & Hsz1 & Hacc1).
    simpl. by apply IH.
Qed.

Lemma accounted_without_eviction_witness :
  let ops := [OpPut "a" "1"; OpGet "a"; OpPut "b" "22"; OpPut "a" "333"] in
  (cache_inv (NewCacheN 2) ∧ Forall sizes_ok (shards (NewCacheN 2))
   ∧ accounted (NewCacheN 2) ∧ Forall no_evict ops)
  ∧ ∃ c', run ops (NewCacheN 2) = Some c' ∧ cache_inv c'
          ∧ Forall sizes_ok (shards c') ∧ memUsage c' = wrap64 (live_size c').
Proof.
  intros ops.
  assert (cache_inv (NewCacheN 2)) as H1 by (apply NewCacheN_inv; simpl; lia).
  destruct (NewCacheN_accounted 2) as [H2 H3].
  assert (Forall no_evict ops) as H4 by (repeat constructor).
  split; [by split_and!|].
  exact (accounted_without_eviction (NewCacheN 2) ops H1 H2 H3 H4).
Defined.

(** ** The monitor *)

Lemma monitor_tick_post m c :
  cache_inv c →
  ∃ c', monitor_tick m c = Some c' ∧ cache_inv c'
    ∧ memUsage c' = memUsage c
    ∧ 0 <= total_entries c - total_entries c' <= 400
    ∧ (∀ j s', shards c' !! j = Some s' →
         ∃ s, shards c !! j = Some s ∧ shard_shrinks s' s).
Proof.
  intros Hc. unfold monitor_tick.
  destruct (SFltb (maxMemoryPct c) _).
  - set (count := if SFltb severityMark _ then EvictionBatchSize * 2
                  else EvictionBatchSize).
    assert (0 <= count <= 400) as Hcount
      by (unfold count, EvictionBatchSize; destruct (SFltb _ _); lia).
    destruct (evictBatch_run_post count c Hc)
      as (ev & c' & Hrun & Hc' & Hev & Htot & Hmem & _ & _ & Hsub & Hle).
    unfold evictBatch. rewrite Hrun. simpl. exists c'.
    specialize (Hle ltac:(lia)). split_and!; try done; lia.
  - exists c. split_and!; try done; try lia.
    intros j s' Hj. exists s'. split; [done|apply shard_shrinks_refl].
Qed.

Lemma monitorMemory_stop evs evs' c :
  monitorMemory (evs ++ StopSignal :: evs') c = monitorMemory evs c.
Proof.
  revert c. induction evs as [|[m|] evs IH]; intros c; simpl; try done.
  destruct (monitor_tick m c); simpl; [apply IH|done].
Qed.

(** X13: the monitor only ever removes.  Any run of it returns, keeps
    the shard invariant, leaves the counter as it was, removes at most
    400 entries per wake-up served, leaves every surviving entry in its
    queue position with its value, and ignores whatever arrives after
    the stop signal. *)
Theorem monitor_only_removes (c : ShardedCache) (evs : list MonitorEvent) :
  cache_inv c →
  ∃ c', monitorMemory evs c = Some c' ∧ cache_inv c'
    ∧ memUsage c' = memUsage c
    ∧ 0 <= total_entries c - total_entries c' <= 400 * ticks evs
    ∧ (∀ j s', shards c' !! j = Some s' →
         ∃ s, shards c !! j = Some s ∧ shard_shrinks s' s)
    ∧ (∀ evs', monitorMemory (evs ++ StopSignal :: evs') c = Some c').
Proof.
  intros Hc.
  cut (∃ c', monitorMemory evs c = Some c' ∧ cache_inv c'
         ∧ memUsage c' = memUsage c
         ∧ 0 <= total_entries c - total_entries c' <= 400 * ticks evs
         ∧ (∀ j s', shards c' !! j = Some s' →
              ∃ s, shards c !! j = Some s ∧ shard_shrinks s' s)).
  { intros (c' & H1 & H2 & H3 & H4 & H5). exists c'. split_and!; try done; try lia.
    intros evs'. by rewrite monitorMemory_stop. }
  revert c Hc. induction evs as [|[m|] evs IH]; intros c Hc; simpl.
  - exists c. split_and!; try done; try lia.
    intros j s' Hj. exists s'. split; [done|apply shard_shrinks_refl].
  - destruct (monitor_tick_post m c Hc) as (c1 & -> & Hc1 & Hm1 & Ht1 & Hs1).
    simpl. destruct (IH c1 Hc1) as (c' & Hrun & Hc' & Hm & Ht & Hs).
    exists c'. split_and!; try done; try lia; try congruence.
    intros j s' Hj. destruct (Hs j s' Hj) as (s1 & Hj1 & Hshr1).
    destruct (Hs1 j s1 Hj1) as (s & Hj0 & Hshr0).
    exists s. split; [done|]. by eapply shard_shrinks_trans.
  - exists c. split_and!; try done; try lia.
    intros j s' Hj. exists s'. split; [done|apply shard_shrinks_refl].
Qed.

Lemma monitor_only_removes_witness :
  let evs := [Tick (mkMemStats 900 1000); Tick (mkMemStats 100 1000); StopSignal;
              Tick (mkMemStats 900 1000)] in
  cache_inv cache_a
  ∧ ∃ c', monitorMemory evs cache_a = Some c' ∧ cache_inv c'
    ∧ memUsage c' = memUsage cache_a
    ∧ 0 <= total_entries cache_a - total_entries c' <= 400 * ticks evs
    ∧ (∀ j s', shards c' !! j = Some s' →
         ∃ s, shards cache_a !! j = Some s ∧ shard_shrinks s' s)
    ∧ (∀ evs', monitorMemory (evs ++ StopSignal :: evs') cache_a = Some c').
Proof.
  intros evs. split; [exact cache_a_inv|].
  exact (monitor_only_removes cache_a evs cache_a_inv).
Defined.

(** ** The fresh cache *)

Lemma evictBatch_all_empty count c :
  cache_wf c → Forall (λ s, itemsList s = []) (shards c) →
  evictBatch count c = Some c.
Proof.
  intros Hwf Hall. unfold evictBatch.
  destruct (decide (1 <= count)) as [Hc|Hc].
  - rewrite evictBatch_run_refines by done.
    unfold EvictBatch_spec. rewrite EvictBatch_shards_empty by done.
    simpl. by destruct c.
  - unfold evictBatch_run. destruct Hwf as (_ & Hsc & _).
    rewrite decide_False by lia.
    destruct (Z.to_nat (shardCount c)); simpl; by rewrite decide_False by lia.
Qed.

Lemma total_entries_NewCacheN n : total_entries (NewCacheN n) = 0.
Proof.
  unfold total_entries. simpl. induction n as [|n IH]; simpl; [done|]. by rewrite IH.
Qed.

(** X14: NewCache builds 1024 empty shards with the counter at 0: the
    state satisfies the shard invariant and the accounting invariant,
    every Get misses and leaves it unchanged, and an eviction batch of
    any size leaves it unchanged. *)
Theorem NewCache_fresh :
  cache_inv NewCache
  ∧ Forall sizes_ok (shards NewCache) ∧ accounted NewCache
  ∧ length (shards NewCache) = 1024%nat
  ∧ total_entries NewCache = 0 ∧ memUsage NewCache = 0
  ∧ (∀ k, Get k NewCache = Some (EmptyString, false, NewCache))
  ∧ (∀ count, evictBatch count NewCache = Some NewCache).
Proof.
  assert (cache_inv NewCache) as Hc
    by (unfold NewCache, DefaultShards; apply NewCacheN_inv; lia).
  destruct (NewCacheN_accounted (Z.to_nat DefaultShards)) as [H2 H3].
  split_and!.
  - exact Hc.
  - exact H2.
  - exact H3.
  - unfold NewCache, NewCacheN, shards. apply length_replicate.
  - apply total_entries_NewCacheN.
  - reflexivity.
  - intros k. apply Get_absent; [apply Hc|apply absent_NewCacheN].
  - intros count. apply evictBatch_all_empty; [apply Hc|].
    apply Forall_replicate. reflexivity.
Qed.

(** * Properties of the handlers *)

(** The fixed bodies have the lengths of the source's literals. *)
Example response_bytes_lengths :
  String.length <$> [successPutResponseBytes; keyNotFoundResponseBytes;
                     methodNotAllowedResponseBytes; invalidJSONResponseBytes;
                     invalidKeyValueLengthResponseBytes; missingKeyResponseBytes;
                     tooManyRequestsResponseBytes; timeoutResponseBytes]
  = [62; 45; 49; 43; 75; 52; 48; 46]%nat.
Proof. reflexivity. Qed.

(** X15: PutCache always answers; it answers 200 exactly when the call
    passes every check (a free slot, method POST, a body that decodes,
    key and value of at most 256 bytes, and a context that is not done),
    and then the cache is the one Put leaves; on any other answer the
    cache is untouched. *)
Theorem PutCache_outcomes (q : PutCall) (c : ShardedCache) :
  cache_wf c →
  ∃ resp c', PutCache q c = Some (resp, c')
    ∧ (statusCode resp = StatusOK ↔ accepted q)
    ∧ (statusCode resp ≠ StatusOK → c' = c)
    ∧ (statusCode resp = StatusOK →
       ∃ req, put_decoded q = Some req
              ∧ Put (PutRequest.Key req) (PutRequest.Value req) c = Some c').
Proof.
  intros Hwf. unfold PutCache, accepted.
  destruct (put_slot q); simpl.
  2:{ eexists _, _. split; [done|]. simpl. split_and!; try done.
      split; [done|]. by intros (? & _). }
  destruct (decide (put_method q ≠ "POST")) as [Hm|Hm].
  { eexists _, _. split; [done|]. simpl. split_and!; try done.
    split; [done|]. by intros (_ & ? & _). }
  apply dec_stable in Hm.
  destruct (put_decoded q) as [req|].
  2:{ eexists _, _. split; [done|]. simpl. split_and!; try done.
      split; [done|]. by intros (_ & _ & _ & ? & ? & _). }
  destruct (decide _) as [Hlen|Hlen].
  { eexists _, _. split; [done|]. simpl. split_and!; try done.
    split; [done|]. intros (_ & _ & _ & r & [= <-] & ? & ?). lia. }
  destruct (put_expired q).
  { eexists _, _. split; [done|]. simpl. split_and!; try done.
    split; [done|]. by intros (_ & _ & ? & _). }
  destruct (Put_stored (PutRequest.Key req) (PutRequest.Value req) c Hwf)
    as (c' & HP & _).
  rewrite HP. simpl. eexists _, _. split; [done|]. simpl. split_and!; try done.
  - split; [|done]. intros _. split_and!; try done. exists req. split; [done|lia].
  - intros _. by exists req.
Qed.

Lemma PutCache_outcomes_witness :
  let q := mkPutCall true "POST" (Some (PutRequest.mk "a" "1")) false in
  cache_wf NewCache
  ∧ ∃ resp c', PutCache q NewCache = Some (resp, c')
    ∧ (statusCode resp = StatusOK ↔ accepted q)
    ∧ (statusCode resp ≠ StatusOK → c' = NewCache)
    ∧ (statusCode resp = StatusOK →
       ∃ req, put_decoded q = Some req
              ∧ Put (PutRequest.Key req) (PutRequest.Value req) NewCache = Some c').
Proof.
  intros q.
  assert (cache_wf NewCache) as H
    by (unfold NewCache, DefaultShards; apply NewCacheN_wf; lia).
  split; [exact H|]. exact (PutCache_outcomes q NewCache H).
Defined.

Lemma length_mark k l : length (mark k l) = length l.
Proof. unfold mark. by rewrite length_fmap. Qed.

Lemma Get_keeps_items k c :
  cache_inv c →
  ∃ v b c', Get k c = Some (v, b, c') ∧ cache_inv c'
    ∧ memUsage c' = memUsage c ∧ total_entries c' = total_entries c
    ∧ shardCount c' = shardCount c
    ∧ ∀ j, (items <$> shards c' !! j) = (items <$> shards c !! j).
Proof.
  intros Hc. destruct (getShard_wf c k (proj1 Hc)) as (i & s & Hi & Hs).
  destruct (Get_inv k c Hc) as (v & b & c' & HG & Hc').
  exists v, b, c'. split; [done|]. split; [done|].
  rewrite (Get_mark c k i s Hc Hi Hs) in HG. injection HG as _ _ <-.
  split_and!; try done.
  - unfold total_entries. simpl. rewrite (sumZ_insert _ _ _ s) by done.
    simpl. unfold Len. rewrite length_mark. lia.
  - intros j. simpl. destruct (decide (j = i)) as [->|Hne].
    + rewrite list_lookup_insert_eq by (by eapply lookup_lt_Some). by rewrite Hs.
    + by rewrite list_lookup_insert_ne.
Qed.

Lemma bounded_items c c' :
  length (shards c') = length (shards c) →
  (∀ j s', shards c' !! j = Some s' → ∃ s, shards c !! j = Some s ∧ items s' ⊆ items s) →
  bounded c → bounded c'.
Proof.
  intros _ Hsub Hb s' k v [j Hj]%list_elem_of_lookup Hk.
  destruct (Hsub j s' Hj) as (s & Hs & Hit).
  apply (Hb s k v); [by eapply list_elem_of_lookup_2|by eapply lookup_weaken].
Qed.

Lemma serve1_bounded e c :
  cache_inv c → bounded c →
  ∃ c', serve1 e c = Some c' ∧ cache_inv c' ∧ bounded c'.
Proof.
  intros Hc Hb. destruct e as [q|q|m]; simpl.
  - unfold PutCache.
    destruct (put_slot q); simpl; [|by exists c].
    destruct (decide (put_method q ≠ "POST")); [by exists c|].
    destruct (put_decoded q) as [req|]; [|by exists c].
    destruct (decide _) as [Hlen|Hlen]; [by exists c|].
    destruct (put_expired q); [by exists c|].
    destruct (Put_inv (PutRequest.Key req) (PutRequest.Value req) c Hc)
      as (c' & HP & Hc').
    rewrite HP. simpl. exists c'. split_and!; try done.
    destruct (getShard_wf c (PutRequest.Key req) (proj1 Hc)) as (i & s & Hi & Hs).
    rewrite (Put_eq _ _ c i s Hi Hs) in HP. injection HP as <-.
    intros s' k v [j Hj]%list_elem_of_lookup Hk. simpl in Hj.
    destruct (decide (j = i)) as [->|Hne].
    + rewrite list_lookup_insert_eq in Hj by (by eapply lookup_lt_Some).
      injection Hj as <-.
      destruct (put_shard_keeps (PutRequest.Key req) (PutRequest.Value req) s)
        as (_ & _ & Hit & _).
      rewrite Hit in Hk.
      destruct (decide (PutRequest.Key req = k)) as [<-|Hkk].
      * rewrite lookup_insert_eq in Hk. injection Hk as <-. lia.
      * rewrite lookup_insert_ne in Hk by done.
        apply (Hb s k v); [by eapply list_elem_of_lookup_2|done].
    + rewrite list_lookup_insert_ne in Hj by done.
      apply (Hb s' k v); [by eapply list_elem_of_lookup_2|done].
  - unfold GetCache.
    destruct (get_slot q); simpl; [|by exists c].
    destruct (decide _); [by exists c|].
    destruct (get_expired q); [by exists c|].
    destruct (Get_keeps_items (get_key q) c Hc)
      as (v & b & c' & HG & Hc' & _ & _ & _ & Hit).
    rewrite HG. simpl.
    assert (bounded c') as Hb'.
    { intros s' k w [j Hj]%list_elem_of_lookup Hk.
      specialize (Hit j). rewrite Hj in Hit. simpl in Hit.
      destruct (shards c !! j) as [s|] eqn:Hs; [|done]. injection Hit as Hit.
      rewrite Hit in Hk.
      apply (Hb s k w); [by eapply list_elem_of_lookup_2|done]. }
    destruct b; simpl; by exists c'.
  - destruct (monitor_tick_post m c Hc) as (c' & Ht & Hc' & _ & _ & Hsub).
    exists c'. split_and!; try done.
    intros s' k v [j Hj]%list_elem_of_lookup Hk.
    destruct (Hsub j s' Hj) as (s & Hs & Hit & _).
    apply (Hb s k v); [by eapply list_elem_of_lookup_2|by eapply lookup_weaken].
Qed.

(** X16: a cache written only through PutCache never holds a key or a
    value longer than 256 bytes: from a state where that holds (the fresh
    cache is one), any sequence of PutCache calls, GetCache calls and
    monitor wake-ups runs to its end and ends in such a state. *)
Theorem serve_bounded (es : list Event) (c : ShardedCache) :
  cache_inv c → bounded c →
  ∃ c', serve es c = Some c' ∧ cache_inv c' ∧ bounded c'.
Proof.
  revert c. induction es as [|e es IH]; intros c Hc Hb; simpl.
  - by exists c.
  - destruct (serve1_bounded e c Hc Hb) as (c1 & -> & Hc1 & Hb1).
    simpl. by apply IH.
Qed.

Lemma bounded_NewCacheN n : bounded (NewCacheN n).
Proof.
  intros s k v Hs Hk. simpl in Hs. apply elem_of_replicate in Hs as [-> _]. done.
Qed.

Lemma serve_bounded_witness :
  let es := [EvPut (mkPutCall true "POST" (Some (PutRequest.mk "a" "1")) false);
             EvGet (mkGetCall true "a" false);
             EvTick (mkMemStats 900 1000)] in
  (cache_inv (NewCacheN 2) ∧ bounded (NewCacheN 2))
  ∧ ∃ c', serve es (NewCacheN 2) = Some c' ∧ cache_inv c' ∧ bounded c'.
Proof.
  intros es.
  assert (cache_inv (NewCacheN 2)) as H1 by (apply NewCacheN_inv; simpl; lia).
  pose proof (bounded_NewCacheN 2) as H2.
  split; [by split|]. exact (serve_bounded es (NewCacheN 2) H1 H2).
Defined.

(** X17: what PutCache accepted under a non-empty key, GetCache returns:
    the Put answers 200 with the success body, and a following GetCache
    of the key (with a free slot and a live context) answers 200 with
    status OK, the key and the value. *)
Theorem PutCache_then_GetCache (q : PutCall) (req : PutRequest.t) (c : ShardedCache) :
  cache_wf c → accepted q → put_decoded q = Some req →
  PutRequest.Key req ≠ EmptyString →
  ∃ c1 c2,
    PutCache q c = Some (writeJSONResponse StatusOK successPutResponseBytes, c1)
    ∧ GetCache (mkGetCall true (PutRequest.Key req) false) c1
      = Some (writeResponse StatusOK
                (Response.mk "OK" EmptyString (PutRequest.Key req)
                             (PutRequest.Value req)), c2).
Proof.
  intros Hwf (Hslot & Hm & Hexp & req' & Hreq' & Hk & Hv) Hreq Hne.
  rewrite Hreq in Hreq'. injection Hreq' as <-.
  destruct (Put_stored (PutRequest.Key req) (PutRequest.Value req) c Hwf)
    as (c1 & HP & Hst).
  destruct (Get_stored _ _ c1 Hst) as (c2 & HG).
  exists c1, c2. split.
  - unfold PutCache. rewrite Hslot, Hreq, Hexp. simpl.
    rewrite decide_False by (by intros H; apply H).
    rewrite decide_False by lia. by rewrite HP.
  - unfold GetCache. simpl. rewrite decide_False by done. by rewrite HG.
Qed.

Lemma PutCache_then_GetCache_witness :
  let req := PutRequest.mk "a" "1" in
  let q := mkPutCall true "POST" (Some req) false in
  (cache_wf NewCache ∧ accepted q ∧ put_decoded q = Some req
   ∧ PutRequest.Key req ≠ EmptyString)
  ∧ ∃ c1 c2,
    PutCache q NewCache = Some (writeJSONResponse StatusOK successPutResponseBytes, c1)
    ∧ GetCache (mkGetCall true (PutRequest.Key req) false) c1
      = Some (writeResponse StatusOK
                (Response.mk "OK" EmptyString (PutRequest.Key req)
                             (PutRequest.Value req)), c2).
Proof.
  intros req q.
  assert (cache_wf NewCache) as H1
    by (unfold NewCache, DefaultShards; apply NewCacheN_wf; lia).
  assert (accepted q) as H2.
  { unfold accepted. split_and!; try done. exists req. split; [done|]. simpl.
    unfold len. simpl. lia. }
  assert (put_decoded q = Some req) as H3 by reflexivity.
  assert (PutRequest.Key req ≠ EmptyString) as H4 by discriminate.
  split; [by split_and!|]. exact (PutCache_then_GetCache q req NewCache H1 H2 H3 H4).
Defined.

(** X18: the empty key can be written and never read.  PutCache accepts a
    request whose key is empty and stores its value, yet GetCache with an
    empty (or absent) key parameter never reaches the cache: it answers
    429 or 400 and leaves the cache as it is. *)
Theorem empty_key_write_only (v : string) (c : ShardedCache) :
  cache_wf c → len v <= 256 →
  ∃ c1,
    PutCache (mkPutCall true "POST" (Some (PutRequest.mk EmptyString v)) false) c
    = Some (writeJSONResponse StatusOK successPutResponseBytes, c1)
    ∧ stored EmptyString v c1
    ∧ ∀ q, get_key q = EmptyString →
        ∃ resp, GetCache q c1 = Some (resp, c1)
          ∧ (statusCode resp = StatusTooManyRequests
             ∨ statusCode resp = StatusBadRequest).
Proof.
  intros Hwf Hv.
  destruct (Put_stored EmptyString v c Hwf) as (c1 & HP & Hst).
  exists c1. split_and!; try done.
  - unfold PutCache. simpl.
    destruct (decide (len EmptyString > 256 ∨ len v > 256)) as [[H|H]|_];
      [unfold len in H; simpl in H; lia|lia|].
    by rewrite HP.
  - intros q Hq. unfold GetCache. rewrite Hq.
    destruct (get_slot q); simpl; eexists; (split; [done|]); simpl; auto.
Qed.

Lemma empty_key_write_only_witness :
  (cache_wf NewCache ∧ len "orphan" <= 256)
  ∧ ∃ c1,
    PutCache (mkPutCall true "POST" (Some (PutRequest.mk EmptyString "orphan")) false)
             NewCache
    = Some (writeJSONResponse StatusOK successPutResponseBytes, c1)
    ∧ stored EmptyString "orphan" c1
    ∧ ∀ q, get_key q = EmptyString →
        ∃ resp, GetCache q c1 = Some (resp, c1)
          ∧ (statusCode resp = StatusTooManyRequests
             ∨ statusCode resp = StatusBadRequest).
Proof.
  assert (cache_wf NewCache) as H1
    by (unfold NewCache, DefaultShards; apply NewCacheN_wf; lia).
  assert (len "orphan" <= 256) as H2 by (unfold len; simpl; lia).
  split; [by split|]. exact (empty_key_write_only "orphan" NewCache H1 H2).
Defined.

(** X19: GetCache is read-only.  It always answers; it leaves the counter,
    the number of entries and every stored key and value as they are; it
    answers 200 exactly when the slot is free, the key is not empty, the
    context is live and the key is stored, and 404 exactly when the first
    three hold and the key is not stored.  The key's length is never
    checked. *)
Theorem GetCache_read_only (q : GetCall) (c : ShardedCache) :
  cache_inv c →
  ∃ resp c', GetCache q c = Some (resp, c') ∧ cache_inv c'
    ∧ memUsage c' = memUsage c ∧ total_entries c' = total_entries c
    ∧ (∀ j, (items <$> shards c' !! j) = (items <$> shards c !! j))
    ∧ let reached := get_slot q = true ∧ get_key q ≠ EmptyString
                     ∧ get_expired q = false in
      (statusCode resp = StatusOK ↔ reached ∧ ∃ v, stored (get_key q) v c)
      ∧ (statusCode resp = StatusNotFound ↔ reached ∧ ¬ ∃ v, stored (get_key q) v c).
Proof.
  intros Hc. unfold GetCache.
  destruct (get_slot q); simpl.
  2:{ eexists _, _. split; [done|]. split_and!; try done; simpl;
        (split; [done|by intros [(? & _) _]]). }
  destruct (decide (get_key q = EmptyString)) as [Hk|Hk].
  { eexists _, _. split; [done|]. split_and!; try done; simpl;
      (split; [done|by intros [(_ & ? & _) _]]). }
  destruct (get_expired q).
  { eexists _, _. split; [done|]. split_and!; try done; simpl;
      (split; [done|by intros [(_ & _ & ?) _]]). }
  destruct (getShard_wf c (get_key q) (proj1 Hc)) as (i & s & Hi & Hs).
  destruct (Get_keeps_items (get_key q) c Hc)
    as (v & b & c' & HG & Hc' & Hm & Ht & _ & Hit).
  rewrite HG. simpl.
  pose proof (Get_unfold (get_key q) c i s Hi Hs) as HU.
  assert ((∃ w, stored (get_key q) w c) ↔ is_Some (items s !! get_key q)) as Hst.
  { split.
    - intros (w & i' & s' & Hi' & Hs' & Hw). rewrite Hi in Hi'. injection Hi' as <-.
      rewrite Hs in Hs'. injection Hs' as <-. eauto.
    - intros [w Hw]. exists w, i, s. by split_and!. }
  destruct (items s !! get_key q) as [w|] eqn:Hw.
  - destruct HU as (s' & HU & _). rewrite HU in HG. injection HG as <- <- <-.
    simpl. eexists _, _. split; [done|]. split_and!; try done; simpl.
    + split; [|done]. intros _. split; [done|]. apply Hst. eauto.
    + split; [done|]. intros [_ Hn]. exfalso. apply Hn, Hst. eauto.
  - rewrite HU in HG. injection HG as <- <- <-.
    simpl. eexists _, _. split; [done|]. split_and!; try done; simpl.
    + split; [done|]. intros [_ Hx]. apply Hst in Hx. by destruct Hx.
    + split; [|done]. intros _. split; [done|]. intros Hx. apply Hst in Hx.
      by destruct Hx.
Qed.

Lemma GetCache_read_only_witness :
  let q := mkGetCall true "a" false in
  cache_inv cache_a
  ∧ ∃ resp c', GetCache q cache_a = Some (resp, c') ∧ cache_inv c'
    ∧ memUsage c' = memUsage cache_a ∧ total_entries c' = total_entries cache_a
    ∧ (∀ j, (items <$> shards c' !! j) = (items <$> shards cache_a !! j))
    ∧ let reached := get_slot q = true ∧ get_key q ≠ EmptyString
                     ∧ get_expired q = false in
      (statusCode resp = StatusOK ↔ reached ∧ ∃ v, stored (get_key q) v cache_a)
      ∧ (statusCode resp = StatusNotFound
         ↔ reached ∧ ¬ ∃ v, stored (get_key q) v cache_a).
Proof.
  intros q. split; [exact cache_a_inv|].
  exact (GetCache_read_only q cache_a cache_a_inv).
Defined.

(** * The victim of the CLOCK sweep *)

Lemma hand_view_length s r : hand_view s r → length r = length (itemsList s).
Proof. intros (l1 & l2 & -> & -> & _). rewrite !length_app. lia. Qed.

Lemma hand_view_exists s : shard_inv s → ∃ r, hand_view s r.
Proof.
  intros Hs. destruct (decide (itemsList s = [])) as [Hl|Hl].
  - exists [], [], []. split_and!; try done.
    pose proof (inv_hand _ Hs) as Hh. destruct (clockHand s); [|done].
    rewrite Hl in Hh. by apply elem_of_nil in Hh.
  - destruct (sweep_hand s Hs Hl) as (l1 & x & l2 & Hl' & Hh).
    by exists (x :: l2 ++ l1), l1, (x :: l2).
Qed.

(** From the hand's view [x :: rest], the split of the queue at [x]. *)
Lemma hand_view_split s x rest :
  hand_view s (x :: rest) →
  ∃ l1 l2, itemsList s = l1 ++ x :: l2 ∧ rest = l2 ++ l1
           ∧ clockHand s = Some (ptr x).
Proof.
  intros (l1 & l2 & Hl & Hr & Hh). destruct l2 as [|y l2]; simpl in Hr.
  - rewrite app_nil_r in Hl. exists [], rest. rewrite Hl, <- Hr.
    rewrite app_nil_r. by split_and!.
  - injection Hr as -> ->. exists l1, l2. by split_and!.
Qed.

Section view_step.
Variables (st : SweepState) (x : Element) (rest : list Element).
Hypothesis Hnd : NoDup (ptrs (itemsList (sw_shard st))).
Hypothesis Hview : hand_view (sw_shard st) (x :: rest).

Lemma view_step_clear :
  referenced (Value x) = true →
  ∃ s', evict_body st = Some (mkSweep s' (evicted st) (attempts st + 1), false)
    ∧ hand_view s' (rest ++ [mkElement (ptr x) (set_referenced false (Value x))])
    ∧ items s' = items (sw_shard st) ∧ elements s' = elements (sw_shard st)
    ∧ ptrs (itemsList s') = ptrs (itemsList (sw_shard st)).
Proof.
  intros Href. destruct (hand_view_split _ _ _ Hview) as (l1 & l2 & Hl & -> & Hh).
  rewrite (evict_body_second_chance st l1 l2 x Hl Hh Hnd Href). simpl.
  eexists. split; [done|]. simpl. split_and!; try done.
  - set (x' := mkElement (ptr x) (set_referenced false (Value x))).
    exists (l1 ++ [x']), l2. split_and!.
    + by rewrite <- app_assoc.
    + by rewrite app_assoc.
    + by rewrite <- app_assoc.
  - rewrite Hl, !ptrs_app. done.
Qed.

Lemma view_step_remove :
  referenced (Value x) = false →
  ∃ s', evict_body st
        = Some (mkSweep s' (evicted st + 1) (attempts st + 1),
                bool_decide (rest = []))
    ∧ hand_view s' rest
    ∧ items s' = delete (key (Value x)) (items (sw_shard st))
    ∧ elements s' = delete (key (Value x)) (elements (sw_shard st))
    ∧ NoDup (ptrs (itemsList s')).
Proof.
  intros Href. destruct (hand_view_split _ _ _ Hview) as (l1 & l2 & Hl & -> & Hh).
  rewrite (evict_body_remove st l1 l2 x Hl Hh Hnd Href). simpl.
  rewrite Hl in Hnd. apply NoDup_ptrs_split in Hnd as (_ & _ & Hnd').
  destruct (decide (l1 ++ l2 = [])) as [He|Hne].
  - apply app_eq_nil in He as [-> ->]. simpl.
    eexists. split; [done|]. simpl.
    split_and!; try done; try (by exists [], []); by constructor.
  - assert (l2 ++ l1 ≠ []) as Hne' by (by destruct l1, l2).
    rewrite bool_decide_false by done.
    eexists. split; [done|]. simpl. split_and!; try done.
    by exists l1, l2.
Qed.
End view_step.

(** The sweep gives a second chance to each referenced node it meets. *)
Lemma view_clear_prefix count maxA : ∀ pre post st fuel,
  NoDup (ptrs (itemsList (sw_shard st))) →
  hand_view (sw_shard st) (pre ++ post) →
  Forall (λ x, referenced (Value x) = true) pre →
  evicted st < count → attempts st + Len pre <= maxA → (length pre <= fuel)%nat →
  ∃ st', evict_loop fuel count maxA st
         = evict_loop (fuel - length pre) count maxA st'
    ∧ NoDup (ptrs (itemsList (sw_shard st')))
    ∧ hand_view (sw_shard st') (post ++ clear pre)
    ∧ evicted st' = evicted st
    ∧ attempts st' = attempts st + Len pre
    ∧ items (sw_shard st') = items (sw_shard st)
    ∧ elements (sw_shard st') = elements (sw_shard st).
Proof.
  induction pre as [|x pre IH]; intros post st fuel Hnd Hv Href Hev Hatt Hfuel.
  - exists st. simpl. rewrite Nat.sub_0_r, app_nil_r.
    change (Len []) with 0. split_and!; try done. lia.
  - apply Forall_cons in Href as [Hx Href].
    destruct fuel as [|fuel]; [simpl in Hfuel; lia|].
    assert (Len (x :: pre) = 1 + Len pre) as HL by (unfold Len; simpl length; lia).
    pose proof (Len_nonneg pre).
    simpl evict_loop. rewrite decide_True by lia.
    destruct (view_step_clear st x (pre ++ post) Hnd Hv Hx)
      as (s1 & -> & Hv1 & Hit1 & Hel1 & Hp1).
    simpl.
    destruct (IH (post ++ [mkElement (ptr x) (set_referenced false (Value x))])
                 (mkSweep s1 (evicted st) (attempts st + 1)) fuel)
      as (st' & Hrun & Hnd' & Hv' & Hev' & Hatt' & Hit' & Hel').
    { simpl. by rewrite Hp1. }
    { simpl. by rewrite app_assoc. }
    { done. }
    { done. }
    { simpl. lia. }
    { simpl in Hfuel. lia. }
    exists st'. rewrite Hrun. simpl in *.
    split_and!; try done; try lia; try congruence.
    by rewrite <- app_assoc in Hv'.
Qed.

Lemma evict_victim_step count maxA st x rest fuel :
  NoDup (ptrs (itemsList (sw_shard st))) →
  hand_view (sw_shard st) (x :: rest) →
  referenced (Value x) = false →
  evicted st + 1 = count → attempts st < maxA →
  ∃ s', evict_loop (S fuel) count maxA st
        = Some (mkSweep s' count (attempts st + 1))
    ∧ hand_view s' rest
    ∧ items s' = delete (key (Value x)) (items (sw_shard st))
    ∧ elements s' = delete (key (Value x)) (elements (sw_shard st)).
Proof.
  intros Hnd Hv Hx Hev Hatt. simpl. rewrite decide_True by lia.
  destruct (view_step_remove st x rest Hnd Hv Hx) as (s' & -> & Hv' & Hit & Hel & _).
  simpl. exists s'. rewrite Hev. split_and!; try done.
  destruct (bool_decide (rest = [])); [done|].
  apply evict_loop_done. simpl. lia.
Qed.

(** X20: the victim of evict(1) is the first unreferenced node met from
    the hand in queue order, wrapping round.  The referenced nodes before
    it get their bit cleared and stay; the victim leaves the queue and
    both maps; the hand moves to the victim's successor. *)
Theorem clock_victim (s : CacheShard) (pre post : list Element) (x : Element) :
  shard_inv s → hand_view s (pre ++ x :: post) →
  Forall (λ y, referenced (Value y) = true) pre → referenced (Value x) = false →
  ∃ s', evict 1 s = Some (1, s')
    ∧ hand_view s' (post ++ clear pre)
    ∧ items s' = delete (key (Value x)) (items s)
    ∧ elements s' = delete (key (Value x)) (elements s).
Proof.
  intros Hs Hv Hpre Hx.
  pose proof (hand_view_length _ _ Hv) as Hlen. rewrite length_app in Hlen.
  simpl in Hlen.
  unfold evict, evict_run. rewrite decide_False.
  2:{ intros [H|H].
      - destruct Hv as (l1 & l2 & _ & Hr & Hh). rewrite Hh in H.
        by destruct pre.
      - unfold Len in H. lia. }
  set (maxA := Len (itemsList s) * 2).
  destruct (view_clear_prefix 1 maxA pre (x :: post) (mkSweep s 0 0) (Z.to_nat maxA))
    as (st1 & -> & Hnd1 & Hv1 & Hev1 & Hatt1 & Hit1 & Hel1);
    simpl; try done; try (unfold maxA, Len; lia); [apply Hs|].
  simpl in *.
  destruct (Z.to_nat maxA - length pre)%nat as [|fuel] eqn:Hfuel;
    [unfold maxA, Len in Hfuel; lia|].
  destruct (evict_victim_step 1 maxA st1 x (post ++ clear pre) fuel)
    as (s' & -> & Hv' & Hit' & Hel'); try done; try lia.
  { unfold maxA, Len in *. lia. }
  simpl. exists s'. split_and!; try done; congruence.
Qed.

(** X21: when every node is referenced, evict(1) clears every bit in a
    full turn and then evicts the node the hand started on. *)
Theorem clock_victim_all_referenced (s : CacheShard) (x : Element)
    (rest : list Element) :
  shard_inv s → hand_view s (x :: rest) →
  Forall (λ y, referenced (Value y) = true) (x :: rest) →
  ∃ s', evict 1 s = Some (1, s')
    ∧ hand_view s' (clear rest)
    ∧ (∀ y, y ∈ itemsList s' → referenced (Value y) = false)
    ∧ items s' = delete (key (Value x)) (items s)
    ∧ elements s' = delete (key (Value x)) (elements s).
Proof.
  intros Hs Hv Hall.
  pose proof (hand_view_length _ _ Hv) as Hlen. simpl in Hlen.
  unfold evict, evict_run. rewrite decide_False.
  2:{ intros [H|H].
      - destruct Hv as (l1 & l2 & _ & Hr & Hh). by rewrite Hh in H.
      - unfold Len in H. lia. }
  set (maxA := Len (itemsList s) * 2).
  destruct (view_clear_prefix 1 maxA (x :: rest) [] (mkSweep s 0 0) (Z.to_nat maxA))
    as (st1 & -> & Hnd1 & Hv1 & Hev1 & Hatt1 & Hit1 & Hel1);
    simpl; try done; try (unfold maxA, Len; simpl length; lia);
    [apply Hs|by rewrite app_nil_r|].
  simpl in *.
  destruct (Z.to_nat maxA - S (length rest))%nat as [|fuel] eqn:Hfuel;
    [unfold maxA, Len in Hfuel; lia|].
  destruct (evict_victim_step 1 maxA st1
              (mkElement (ptr x) (set_referenced false (Value x))) (clear rest) fuel)
    as (s' & -> & Hv' & Hit' & Hel'); try done; try lia.
  { unfold maxA, Len in *. simpl length in *. lia. }
  simpl in Hit', Hel'. rewrite Hit1 in Hit'. rewrite Hel1 in Hel'.
  simpl. exists s'. split_and!; try done.
  intros y Hy. destruct Hv' as (l1 & l2 & Hl & Hr & _).
  assert (y ∈ clear rest) as Hin by (rewrite Hr; rewrite Hl in Hy; set_solver).
  pose proof (clear_unreferenced rest) as Hc.
  by apply (proj1 (Forall_forall _ _) Hc).
Qed.

Lemma run_inv ops : ∀ c, cache_inv c → ∃ c', run ops c = Some c' ∧ cache_inv c'.
Proof.
  induction ops as [|o ops IH]; intros c Hc; simpl; [by exists c|].
  assert (∃ c1, step o c = Some c1 ∧ cache_inv c1) as (c1 & -> & Hc1).
  { destruct o as [k|k v|count]; simpl.
    - destruct (Get_inv k c Hc) as (v & b & c1 & -> & Hc1). by exists c1.
    - by apply Put_inv.
    - destruct (evictBatch_run_post count c Hc) as (ev & c1 & Hrun & Hc1 & _).
      unfold evictBatch. rewrite Hrun. by exists c1. }
  simpl. by apply IH.
Qed.

Lemma clock_victim_witness :
  let b := mkElement 1 (mkClockItem "b" true 2) in
  let x := mkElement 2 (mkClockItem "c" false 2) in
  ∃ c s, cache_swept = Some c ∧ shards c !! 0%nat = Some s
    ∧ (shard_inv s ∧ hand_view s ([b] ++ x :: [])
       ∧ Forall (λ y, referenced (Value y) = true) [b]
       ∧ referenced (Value x) = false)
    ∧ ∃ s', evict 1 s = Some (1, s')
      ∧ hand_view s' ([] ++ clear [b])
      ∧ items s' = delete (key (Value x)) (items s)
      ∧ elements s' = delete (key (Value x)) (elements s).
Proof.
  intros b x.
  assert (cache_inv (NewCacheN 1)) as H0 by (apply NewCacheN_inv; simpl; lia).
  destruct (run_inv [OpPut "a" "1"; OpPut "b" "2"; OpPut "c" "3"; OpEvictBatch 1;
                     OpGet "b"] (NewCacheN 1) H0) as (c & Hrun & Hc).
  assert (∃ s, shards c !! 0%nat = Some s ∧ itemsList s = [b; x]
               ∧ clockHand s = Some 1%nat) as (s & Hs & Hl & Hh).
  { vm_compute in Hrun. injection Hrun as <-. eexists. by split_and!. }
  exists c, s.
  pose proof (cache_inv_shard _ _ _ Hc Hs) as H1.
  assert (hand_view s ([b] ++ x :: [])) as H2
    by (exists [], [b; x]; rewrite Hl, Hh; by split_and!).
  assert (Forall (λ y, referenced (Value y) = true) [b]) as H3 by (by constructor).
  assert (referenced (Value x) = false) as H4 by reflexivity.
  split; [exact Hrun|]. split; [exact Hs|]. split; [by split_and!|].
  exact (clock_victim s [b] [] x H1 H2 H3 H4).
Defined.

Lemma clock_victim_all_referenced_witness :
  let a := mkElement 0 (mkClockItem "a" true 2) in
  let rest := [mkElement 1 (mkClockItem "b" true 2);
               mkElement 2 (mkClockItem "c" true 2)] in
  ∃ c s, cache_abc = Some c ∧ shards c !! 0%nat = Some s
    ∧ (shard_inv s ∧ hand_view s (a :: rest)
       ∧ Forall (λ y, referenced (Value y) = true) (a :: rest))
    ∧ ∃ s', evict 1 s = Some (1, s')
      ∧ hand_view s' (clear rest)
      ∧ (∀ y, y ∈ itemsList s' → referenced (Value y) = false)
      ∧ items s' = delete (key (Value a)) (items s)
      ∧ elements s' = delete (key (Value a)) (elements s).
Proof.
  intros a rest.
  assert (cache_inv (NewCacheN 1)) as H0 by (apply NewCacheN_inv; simpl; lia).
  destruct (run_inv [OpPut "a" "1"; OpPut "b" "2"; OpPut "c" "3"] (NewCacheN 1) H0)
    as (c & Hrun & Hc).
  assert (∃ s, shards c !! 0%nat = Some s ∧ itemsList s = a :: rest
               ∧ clockHand s = Some 0%nat) as (s & Hs & Hl & Hh).
  { vm_compute in Hrun. injection Hrun as <-. eexists. by split_and!. }
  exists c, s.
  pose proof (cache_inv_shard _ _ _ Hc Hs) as H1.
  assert (hand_view s (a :: rest)) as H2
    by (exists [], (a :: rest); rewrite Hl, Hh; by split_and!).
  assert (Forall (λ y, referenced (Value y) = true) (a :: rest)) as H3
    by (by repeat constructor).
  split; [exact Hrun|]. split; [exact Hs|]. split; [by split_and!|].
  exact (clock_victim_all_referenced s a rest H1 H2 H3).
Defined.

(** * How a batch spreads over the shards *)

Lemma EvictBatch_shards_per_shard count q : ∀ ss running r ss',
  Forall shard_inv ss → 1 <= q →
  EvictBatch_shards count q running ss = Some (r, ss') →
  Forall2 (λ s s', 0 <= Len (itemsList s) - Len (itemsList s') <= q) ss ss'.
Proof.
  induction ss as [|s ss IH]; intros running r ss' Hall Hq Hrun; simpl in Hrun.
  - injection Hrun as _ <-. constructor.
  - apply Forall_cons in Hall as [Hs Hall].
    destruct (decide (count <= running)).
    + injection Hrun as _ <-. apply Forall2_same_length_lookup. split; [done|].
      intros j x y Hx Hy. rewrite Hx in Hy. injection Hy as <-. lia.
    + destruct (evict_post q s Hs) as (ev & s1 & He & _ & Hn & Hlen & _).
      rewrite He in Hrun. simpl in Hrun.
      destruct (EvictBatch_shards count q (running + ev) ss) as [[r1 rest']|] eqn:Hrest;
        [|done].
      simpl in Hrun. injection Hrun as _ <-.
      constructor; [|by eapply IH].
      pose proof (Len_nonneg (itemsList s)). lia.
Qed.

(** X22: an eviction batch for totalCount >= 1 takes at most
    max(1, totalCount / shardCount) entries from any one shard, so a
    batch smaller than the number of shards (the monitor's 200 or 400
    against 1024 shards) takes at most one entry from each shard it
    visits. *)
Theorem evictBatch_per_shard (c c' : ShardedCache) (totalCount : Z) :
  cache_inv c → 1 <= totalCount → evictBatch totalCount c = Some c' →
  Forall2 (λ s s', 0 <= Len (itemsList s) - Len (itemsList s')
                   <= Z.max 1 (totalCount / shardCount c))
          (shards c) (shards c')
  ∧ (totalCount < shardCount c → Z.max 1 (totalCount / shardCount c) = 1).
Proof.
  intros Hc Hcount Hb. split.
  - unfold evictBatch in Hb.
    rewrite evictBatch_run_refines in Hb by (done || apply Hc).
    unfold EvictBatch_spec in Hb.
    destruct (EvictBatch_shards _ _ 0 (shards c)) as [[r ss']|] eqn:Hrun; [|done].
    simpl in Hb. injection Hb as <-. simpl.
    eapply EvictBatch_shards_per_shard; [apply Hc|lia|exact Hrun].
  - intros Hlt. rewrite Z.div_small by lia. lia.
Qed.

Lemma evictBatch_per_shard_witness :
  ∃ c c', cache_abc = Some c
    ∧ (cache_inv c ∧ 1 <= 2 ∧ evictBatch 2 c = Some c')
    ∧ Forall2 (λ s s', 0 <= Len (itemsList s) - Len (itemsList s')
                       <= Z.max 1 (2 / shardCount c))
              (shards c) (shards c')
    ∧ (2 < shardCount c → Z.max 1 (2 / shardCount c) = 1).
Proof.
  assert (cache_inv (NewCacheN 1)) as H0 by (apply NewCacheN_inv; simpl; lia).
  destruct (run_inv [OpPut "a" "1"; OpPut "b" "2"; OpPut "c" "3"] (NewCacheN 1) H0)
    as (c & Hrun & Hc).
  destruct (evictBatch_run_post 2 c Hc) as (ev & c' & Hb & _).
  assert (evictBatch 2 c = Some c') as Hb' by (unfold evictBatch; by rewrite Hb).
  assert (1 <= 2) as H2 by lia.
  exists c, c'. split; [exact Hrun|]. split; [by split_and!|].
  exact (evictBatch_per_shard c c' 2 Hc H2 Hb').
Defined.
